(** * pyanaconda.ntp: NTP servers and the chrony configuration file

    A shallow embedding of [pyanaconda/ntp.py]: the directive regular
    expression and its backtracking matcher, the parser and the writer of
    the configuration file, the one-time synchronisation helper and the
    cache of server states, followed by the properties proved about them. *)

From Stdlib Require Import Ascii String List ZArith QArith Lia Bool DecimalString.
From stdpp Require Import gmap list strings.
Import ListNotations.
Open Scope list_scope.

(** ** Python text primitives

    A Python [str] is a list of code points; the model keeps the first 256
    of them ([ascii]), which cover every character the module names. *)

Abbreviation str := (list ascii).

Definition py (s : string) : str := list_ascii_of_string s.

Definition LF : ascii := "010"%char.
Definition CR : ascii := "013"%char.
Definition SP : ascii := " "%char.

Definition code (c : ascii) : N := N_of_ascii c.

Definition in_range (lo hi : N) (c : ascii) : bool :=
  ((lo <=? code c) && (code c <=? hi))%N.

(** [str.isspace] on one character, which is also what [\s] matches in a
    [str] pattern: TAB..CR, FS..US, space, NEL and NBSP. *)
Definition is_space (c : ascii) : bool :=
  in_range 9 13 c || in_range 28 31 c || (code c =? 32)%N
  || (code c =? 133)%N || (code c =? 160)%N.

Definition is_upper_az (c : ascii) : bool := in_range 65 90 c.
Definition is_lower_az (c : ascii) : bool := in_range 97 122 c.
Definition is_digit (c : ascii) : bool := in_range 48 57 c.
Definition is_alnum (c : ascii) : bool :=
  is_lower_az c || is_upper_az c || is_digit c.

(** [str.lower]: A-Z and the upper-case letters of the Latin-1 block. *)
Definition lower_char (c : ascii) : ascii :=
  if is_upper_az c || (in_range 192 222 c && negb (code c =? 215)%N)
  then ascii_of_N (code c + 32) else c.

(** [str.upper], on the letters a-z; the module applies it to the type
    token of a match only. *)
Definition upper_char (c : ascii) : ascii :=
  if is_lower_az c then ascii_of_N (code c - 32) else c.

Definition lower (s : str) : str := map lower_char s.
Definition upper (s : str) : str := map upper_char s.

Definition str_eqb (a b : str) : bool := bool_decide (a = b).

(** [x in xs] for a list of strings. *)
Definition str_in (x : str) (xs : list str) : bool := existsb (str_eqb x) xs.

(** [sep.join(xs)] *)
Fixpoint join (sep : str) (xs : list str) : str :=
  match xs with
  | [] => []
  | [x] => x
  | x :: rest => x ++ sep ++ join sep rest
  end.

(** [s.split()]: the maximal runs of characters that are not whitespace. *)
Fixpoint split (s : str) : list str :=
  match s with
  | [] => []
  | c :: s' =>
      if is_space c then split s'
      else match s' with
           | [] => [[c]]
           | d :: _ =>
               if is_space d then [c] :: split s'
               else match split s' with
                    | w :: ws => (c :: w) :: ws
                    | [] => [[c]]
                    end
           end
  end.

(** [xs[i:j]] *)
Definition slice {A} (xs : list A) (i j : nat) : list A :=
  firstn (j - i) (skipn i xs).

(** What a file opened with [open(path, "r")] hands out: the universal
    newlines mode turns [\r\n] and a lone [\r] into [\n]. *)
Fixpoint universal_newlines (s : str) : str :=
  match s with
  | [] => []
  | c :: s' =>
      if Ascii.eqb c CR then
        LF :: match s' with
              | d :: s'' =>
                  if Ascii.eqb d LF then universal_newlines s''
                  else universal_newlines s'
              | [] => []
              end
      else c :: universal_newlines s'
  end.

(** [for line in f]: the lines of a text, each with its newline kept. *)
Fixpoint readlines (s : str) : list str :=
  match s with
  | [] => []
  | c :: s' =>
      if Ascii.eqb c LF then [c] :: readlines s'
      else match readlines s' with
           | l :: ls => (c :: l) :: ls
           | [] => [[c]]
           end
  end.

Definition file_lines (contents : str) : list str :=
  readlines (universal_newlines contents).

(** ** Regular expressions

    The fragment of [re] the module uses, with the backtracking search of
    the library: alternatives are tried left to right, a repetition takes
    as many characters as it can and gives them back one at a time. *)

Inductive regex : Type :=
| Bol                                  (* ^ *)
| Eol                                  (* $ *)
| Lit (s : str)                        (* a literal word *)
| Star (cls : ascii -> bool)           (* [cls]* *)
| Plus (cls : ascii -> bool)           (* [cls]+ *)
| Opt (cls : ascii -> bool)            (* [cls]? *)
| Alt (r1 r2 : regex)                  (* r1|r2 *)
| Seq (r1 r2 : regex)                  (* r1 r2 *)
| Group (n : nat) (r : regex).         (* the n-th parenthesis *)

(** The groups of a match: [(n, text)], latest first. *)
Abbreviation groups := (list (nat * str)).

Fixpoint strip_prefix (p s : str) : option str :=
  match p, s with
  | [], _ => Some s
  | a :: p', b :: s' => if Ascii.eqb a b then strip_prefix p' s' else None
  | _ :: _, [] => None
  end.

Definition or_else {A} (x : option A) (y : option A) : option A :=
  match x with Some _ => x | None => y end.

Fixpoint star (cls : ascii -> bool) (s : str) (g : groups)
    (k : str -> groups -> option groups) : option groups :=
  match s with
  | c :: s' => if cls c then or_else (star cls s' g k) (k s g) else k s g
  | [] => k s g
  end.

Fixpoint run (whole : str) (r : regex) (s : str) (g : groups)
    (k : str -> groups -> option groups) : option groups :=
  match r with
  | Bol => if (length s =? length whole)%nat then k s g else None
  | Eol =>
      match s with
      | [] => k s g
      | [c] => if Ascii.eqb c LF then k s g else None
      | _ => None
      end
  | Lit w =>
      match strip_prefix w s with
      | Some s' => k s' g
      | None => None
      end
  | Star cls => star cls s g k
  | Plus cls =>
      match s with
      | c :: s' => if cls c then star cls s' g k else None
      | [] => None
      end
  | Opt cls =>
      match s with
      | c :: s' => if cls c then or_else (k s' g) (k s g) else k s g
      | [] => k s g
      end
  | Alt r1 r2 => or_else (run whole r1 s g k) (run whole r2 s g k)
  | Seq r1 r2 => run whole r1 s g (fun s' g' => run whole r2 s' g' k)
  | Group n r =>
      run whole r s g
        (fun s' g' => k s' ((n, firstn (length s - length s') s) :: g'))
  end.

(** The continuation at the end of the pattern: the match is found. *)
Definition accept : str -> groups -> option groups := fun _ g => Some g.

(** [pattern.match(line)] *)
Definition re_match (r : regex) (line : str) : option groups :=
  run line r line [] accept.

(** [match.group(n)] *)
Fixpoint group (n : nat) (g : groups) : str :=
  match g with
  | [] => []
  | (m, s) :: g' => if (m =? n)%nat then s else group n g'
  end.

(** ** Module constants *)

Definition is_host_char (c : ascii) : bool :=
  Ascii.eqb c "-"%char || is_lower_az c || is_upper_az c
  || Ascii.eqb c "."%char || is_digit c.

Definition is_option_char (c : ascii) : bool := is_alnum c || is_space c.

Declare Scope regex_scope.
Delimit Scope regex_scope with re.
Infix "~~" := Seq (at level 65, right associativity) : regex_scope.

(** The pattern, token by token:
    ^  \s*  (server|pool)  \s*  ([-a-zA-Z.0-9]+)  \s?  ([a-zA-Z0-9\s]* )  $ *)
Definition SRV_LINE_REGEXP : regex :=
  (Bol ~~ Star is_space ~~ Group 1 (Alt (Lit (py "server")) (Lit (py "pool")))
   ~~ Star is_space ~~ Group 2 (Plus is_host_char)
   ~~ Opt is_space ~~ Group 3 (Star is_option_char) ~~ Eol)%re.

Definition NTP_CONFIG_FILE : str := py "/etc/chrony.conf".

Definition SRV_NOARG_OPTIONS : list str :=
  map py ["burst"; "iburst"; "nts"; "prefer"; "require"; "trust";
          "noselect"; "xleave"]%string.

Definition SRV_ARG_OPTIONS : list str :=
  map py ["key"; "minpoll"; "maxpoll"]%string.

Definition heading : str :=
  py "# These servers were defined in the installation:" ++ [LF].

(** Modelled from the spec: the structure describing a single time source
    (type, hostname, option list); its class, [TimeSourceData], is imported
    from another package. The type is the string [SERVER] or [POOL]. *)
Record TimeSourceData : Type := {
  type : str;
  hostname : str;
  options : list str
}.

Definition TIME_SOURCE_SERVER : str := py "SERVER".
Definition TIME_SOURCE_POOL : str := py "POOL".

(** The names imported from [pyanaconda.core.constants]; their values are
    not part of this module. *)
Class Constants : Type := {
  THREAD_SYNC_TIME_BASENAME : str;
  THREAD_NTP_SERVER_CHECK : str;
  NTP_SERVER_OK : Z;
  NTP_SERVER_NOK : Z;
  NTP_SERVER_QUERY : Z
}.

(** ** Reading the configuration *)

Definition is_directive (line : str) : bool :=
  match re_match SRV_LINE_REGEXP line with Some _ => true | None => false end.

(** One round of the loop over [range(len(words))]; the state is
    [(skip_argument, server.options)]. *)
Definition option_step (words : list str) (st : bool * list str) (i : nat)
    : bool * list str :=
  let '(skip_argument, opts) := st in
  if skip_argument then (false, opts)
  else if str_in (nth i words []) SRV_NOARG_OPTIONS then
    (false, opts ++ [nth i words []])
  else if str_in (nth i words []) SRV_ARG_OPTIONS
          && (i + 1 <? length words)%nat then
    (true, opts ++ [join [SP] (slice words i (i + 2))])
  else (false, opts).

Definition parse_options (words : list str) : list str :=
  snd (fold_left (option_step words) (seq 0 (length words)) (false, [])).

(** The body of the loop over the lines, for a line that matches. *)
Definition parse_line (line : str) : option TimeSourceData :=
  match re_match SRV_LINE_REGEXP line with
  | None => None
  | Some m =>
      Some {| type := upper (group 1 m);
              hostname := group 2 m;
              options := parse_options (split (lower (group 3 m))) |}
  end.

Definition collect (servers : list TimeSourceData) (line : str)
    : list TimeSourceData :=
  match parse_line line with
  | None => servers
  | Some server => servers ++ [server]
  end.

Definition parse_lines (lines : list str) : list TimeSourceData :=
  fold_left collect lines [].

(** A file as the module sees it: [open] either raises [IOError] or gives a
    text whose lines are read one by one; a read can raise [IOError] too,
    after the lines that were read before it. *)
Inductive io_result (A : Type) : Type :=
| IOError (strerror : str)
| Opened (a : A).
Arguments IOError {A} strerror.
Arguments Opened {A} a.

Record text_file : Type := {
  contents : str;
  read_error : option str
}.

Abbreviation filesystem := (str -> io_result text_file).

Inductive NTPconfigError : Type :=
| NTPconfigError_msg (msg : str).

Definition cannot_open_for_reading (conf_file_path strerror : str) : str :=
  py "Cannot open config file " ++ conf_file_path ++ py " for reading ("
  ++ strerror ++ py ").".

Definition get_servers_from_config (fs : filesystem) (conf_file_path : str)
    : NTPconfigError + list TimeSourceData :=
  match fs conf_file_path with
  | IOError strerror =>
      inl (NTPconfigError_msg (cannot_open_for_reading conf_file_path strerror))
  | Opened conf_file =>
      let servers := parse_lines (file_lines (contents conf_file)) in
      match read_error conf_file with
      | Some strerror =>
          inl (NTPconfigError_msg
                 (cannot_open_for_reading conf_file_path strerror))
      | None => inr servers
      end
  end.

(** ** Writing the configuration

    [save_servers_to_config] between the opening of the two files and
    their closing: [old_conf] is the text of the old configuration, the
    result is the text written to the new one. The opening of the files,
    the temporary file and the copy over the old file are left out; no
    property below is about them. *)

Definition write (new_conf_file data : str) : str := new_conf_file ++ data.

Definition server_line (server : TimeSourceData) : str :=
  join [SP] ([lower (type server); hostname server] ++ options server) ++ [LF].

Definition copy_line (new_conf_file line : str) : str :=
  if negb (is_directive line) && negb (str_eqb line heading)
  then write new_conf_file line else new_conf_file.

Definition save_servers_to_config (servers : list TimeSourceData)
    (old_conf : str) : str :=
  let new_conf_file := write [] heading in
  let new_conf_file :=
    fold_left (fun f server => write f (server_line server))
      servers new_conf_file in
  let new_conf_file := write new_conf_file [LF] in
  fold_left copy_line (file_lines old_conf) new_conf_file.

(** [n] rewrites in a row: each one reads what the one before wrote. *)
Fixpoint rewrite_times (n : nat) (servers : list TimeSourceData)
    (conf : str) : str :=
  match n with
  | O => conf
  | S n' => save_servers_to_config servers (rewrite_times n' servers conf)
  end.

(** ** Collaborators and effects

    The network, the clock and the thread manager are collaborators of the
    module. A call to one of them is recorded in a trace; what it answers
    is given by a [World]. *)

Inductive exn : Type :=
| NTPException              (* ntplib.NTPException *)
| gaierror                  (* socket.gaierror *)
| socket_error              (* any other socket.error *)
| OtherException.           (* anything the module does not name *)

Inductive event : Type :=
| Request (hostname : str)                     (* client.request(hostname) *)
| CreateConnection (hostname : str) (port : Z) (* socket.create_connection *)
| SetSystemTime (secs : Z)                     (* isys.set_system_time(secs) *)
| Callback (cb : nat) (success : bool).        (* callback(success) *)

Record World : Type := {
  ntp_reply : str -> exn + Q;                 (* tx_time of the answer *)
  connection : str -> Z -> option exn;
  clock_failure : Z -> option exn
}.

(** A thread the module hands to the thread manager: its target and
    arguments. *)
Inductive thread : Type :=
| SyncTimeThread (server : TimeSourceData) (callback : option nat)
| ServerCheckThread (hostname : str) (nts_enabled : bool).

Record system : Type := {
  _cache : gmap str Z;              (* NTPServerStatusCache._cache *)
  threads : gmap str thread;        (* the threads threadMgr has running *)
  thread_counter : nat;             (* numbers the threads named by prefix *)
  trace : list event
}.

Definition initial_system : system :=
  {| _cache := ∅; threads := ∅; thread_counter := 0; trace := [] |}.

(** Computations that read and change the system and may raise. *)
Definition M (A : Type) : Type := system -> (exn + A) * system.

Definition ret {A} (a : A) : M A := fun st => (inr a, st).
Definition raise {A} (e : exn) : M A := fun st => (inl e, st).
Definition bind {A B} (m : M A) (k : A -> M B) : M B :=
  fun st =>
    match m st with
    | (inr a, st') => k a st'
    | (inl e, st') => (inl e, st')
    end.
Definition try_except {A} (m : M A) (handler : exn -> M A) : M A :=
  fun st =>
    match m st with
    | (inr a, st') => (inr a, st')
    | (inl e, st') => handler e st'
    end.

Declare Scope py_scope.
Delimit Scope py_scope with M.
Notation "x <~ m ; k" := (bind m (fun x => k))
  (at level 100, m at next level, right associativity) : py_scope.
Notation "m ;; k" := (bind m (fun _ => k))
  (at level 100, right associativity) : py_scope.

Definition emit (e : event) : M unit :=
  fun st =>
    (inr tt, {| _cache := _cache st; threads := threads st;
                thread_counter := thread_counter st;
                trace := trace st ++ [e] |}).

Definition answer {A} (r : exn + A) : M A :=
  match r with inl e => raise e | inr a => ret a end.

Definition fail_with (r : option exn) : M unit :=
  match r with Some e => raise e | None => ret tt end.

(** [ntplib.NTPClient().request(hostname)], returning [tx_time]. *)
Definition client_request (w : World) (host : str) : M Q :=
  (emit (Request host) ;; answer (ntp_reply w host))%M.

(** [socket.create_connection((hostname, port), 2)] and [close]. *)
Definition create_connection (w : World) (host : str) (port : Z) : M unit :=
  (emit (CreateConnection host port) ;; fail_with (connection w host port))%M.

(** [isys.set_system_time(secs)] *)
Definition set_system_time (w : World) (secs : Z) : M unit :=
  (emit (SetSystemTime secs) ;; fail_with (clock_failure w secs))%M.

(** [int(x)] of a float, every finite float being a rational: the
    fraction is cut off, towards zero. *)
Definition int (x : Q) : Z := Z.quot (Qnum x) (Z.pos (Qden x)).

(** Modelled from the spec: the task registry, "isRunning(name) -> bool,
    start(name, function, args)"; [threadMgr] and [AnacondaThread] are
    imported from another module. A thread that is given a prefix gets the
    prefix and a running number as its name. *)
Definition threadMgr_get (name : str) : M (option thread) :=
  fun st => (inr (threads st !! name), st).

Definition threadMgr_add (name : str) (t : thread) : M unit :=
  fun st =>
    (inr tt, {| _cache := _cache st; threads := <[name := t]> (threads st);
                thread_counter := thread_counter st; trace := trace st |}).

Definition decimal (n : nat) : str :=
  py (NilEmpty.string_of_uint (Nat.to_uint n)).

Definition prefixed_name (prefix : str) : M str :=
  fun st =>
    (inr (prefix ++ decimal (S (thread_counter st))),
     {| _cache := _cache st; threads := threads st;
        thread_counter := S (thread_counter st); trace := trace st |}).

Definition threadMgr_remove (name : str) : M unit :=
  fun st =>
    (inr tt, {| _cache := _cache st; threads := delete name (threads st);
                thread_counter := thread_counter st; trace := trace st |}).

(** ** Probing a server *)

Definition ntp_server_working (w : World) (server_hostname : str)
    (nts_enabled : bool) : M bool :=
  try_except
    ((if nts_enabled then create_connection w server_hostname 4460
      else (client_request w server_hostname ;; ret tt)) ;;
     ret true)%M
    (fun e =>
       match e with
       | NTPException => ret false
       | gaierror => ret false
       | socket_error => ret false
       | OtherException => raise e
       end).

(** ** One-time synchronisation *)

Definition _one_time_sync (w : World) (server : TimeSourceData)
    (callback : option nat) : M bool :=
  (success <~
     try_except
       (results <~ client_request w (hostname server) ;
        set_system_time w (int results) ;;
        ret true)
       (fun e =>
          match e with
          | NTPException => ret false
          | gaierror => ret false
          | _ => raise e
          end) ;
   match callback with
   | Some cb => emit (Callback cb success)
   | None => ret tt
   end ;;
   ret success)%M.

Section WithConstants.
Context `{Constants}.

Definition sync_thread_name (server : TimeSourceData) : str :=
  THREAD_SYNC_TIME_BASENAME ++ py "_" ++ hostname server.

Definition one_time_sync_async (server : TimeSourceData)
    (callback : option nat) : M unit :=
  (let thread_name := sync_thread_name server in
   running <~ threadMgr_get thread_name ;
   match running with
   | Some _ => ret tt
   | None => threadMgr_add thread_name (SyncTimeThread server callback)
   end)%M.

(** ** The cache of server states *)

Definition get_status (server : TimeSourceData) : M Z :=
  fun st => (inr (default NTP_SERVER_QUERY (_cache st !! hostname server)), st).

Definition _set_status (host : str) (status : Z) : M unit :=
  fun st =>
    (inr tt, {| _cache := <[host := status]> (_cache st);
                threads := threads st; thread_counter := thread_counter st;
                trace := trace st |}).

Definition check_status (server : TimeSourceData) : M unit :=
  (let host := hostname server in
   let nts_enabled := str_in (py "nts") (options server) in
   _set_status host NTP_SERVER_QUERY ;;
   name <~ prefixed_name THREAD_NTP_SERVER_CHECK ;
   threadMgr_add name (ServerCheckThread host nts_enabled))%M.

Definition _check_status (w : World) (host : str) (nts_enabled : bool)
    : M unit :=
  (result <~ ntp_server_working w host nts_enabled ;
   if result : bool then _set_status host NTP_SERVER_OK
   else _set_status host NTP_SERVER_NOK)%M.

(** A running thread calls its target and leaves the registry when the
    target returns or raises. *)
Definition thread_body (w : World) (t : thread) : M unit :=
  match t with
  | SyncTimeThread server callback =>
      (_one_time_sync w server callback ;; ret tt)%M
  | ServerCheckThread host nts_enabled => _check_status w host nts_enabled
  end.

Definition run_thread (w : World) (name : str) (t : thread) : M unit :=
  (try_except (thread_body w t) (fun _ => ret tt) ;; threadMgr_remove name)%M.

(** What can happen to the system: a caller asks for a check or for a
    synchronisation, or a running thread does its work. *)
Inductive step : system -> system -> Prop :=
| step_check_status st server :
    step st (snd (check_status server st))
| step_sync_async st server callback :
    step st (snd (one_time_sync_async server callback st))
| step_thread st w name t :
    threads st !! name = Some t ->
    step st (snd (run_thread w name t st)).

Inductive reachable : system -> Prop :=
| reachable_initial : reachable initial_system
| reachable_step st st' : reachable st -> step st st' -> reachable st'.

End WithConstants.

(** ** Definitions used to state the properties *)

Fixpoint take_while (p : ascii -> bool) (s : str) : str :=
  match s with
  | c :: s' => if p c then c :: take_while p s' else []
  | [] => []
  end.

Fixpoint drop_while (p : ascii -> bool) (s : str) : str :=
  match s with
  | c :: s' => if p c then drop_while p s' else s
  | [] => []
  end.

(** The directive grammar read from left to right without backtracking:
    the type token, the host name and the region of the options. *)
Definition type_token (s : str) : option (str * str) :=
  match strip_prefix (py "server") s with
  | Some s' => Some (py "server", s')
  | None =>
      match strip_prefix (py "pool") s with
      | Some s' => Some (py "pool", s')
      | None => None
      end
  end.

Definition options_region (s : str) : str :=
  match s with
  | c :: t => if is_space c then t else s
  | [] => []
  end.

Definition scan_host (s : str) : option (str * str) :=
  match take_while is_host_char s with
  | [] => None
  | host =>
      if forallb is_option_char (drop_while is_host_char s)
      then Some (host, options_region (drop_while is_host_char s))
      else None
  end.

Definition scan_directive (line : str) : option (str * str * str) :=
  match type_token (drop_while is_space line) with
  | None => None
  | Some (ty, s) =>
      match scan_host (drop_while is_space s) with
      | None => None
      | Some (host, region) => Some (ty, host, region)
      end
  end.

Definition scan_groups (line : str) : option groups :=
  match scan_directive line with
  | None => None
  | Some (ty, host, region) => Some [(3, region); (2, host); (1, ty)]
  end.

(** After the leading whitespace comes a type token and, right after it,
    a whitespace character. *)
Definition type_then_space (line : str) : bool :=
  match type_token (drop_while is_space line) with
  | Some (_, c :: _) => is_space c
  | _ => false
  end.

(** The shape of a directive line: whitespace, the type token, whitespace,
    a host name, and a rest of letters, digits and whitespace. *)
Definition directive_shape (line ws ty ws' host rest : str) : Prop :=
  line = ws ++ ty ++ ws' ++ host ++ rest
  /\ forallb is_space ws = true
  /\ (ty = py "server" \/ ty = py "pool")
  /\ forallb is_space ws' = true
  /\ host <> []
  /\ forallb is_host_char host = true
  /\ forallb is_option_char rest = true.

(** The treatment of the options in words, for comparison with the loop of
    the parser: a flag is kept; an option that takes an argument is kept
    with the word after it, which is used up; anything else is dropped. *)
Fixpoint consume_options (words : list str) : list str :=
  match words with
  | [] => []
  | w :: rest =>
      if str_in w SRV_NOARG_OPTIONS then w :: consume_options rest
      else if str_in w SRV_ARG_OPTIONS then
        match rest with
        | arg :: rest' => (w ++ [SP] ++ arg) :: consume_options rest'
        | [] => []
        end
      else consume_options rest
  end.

(** A line of the old configuration that a rewrite copies. *)
Definition is_passthrough (line : str) : bool :=
  negb (is_directive line) && negb (str_eqb line heading).

Definition passthrough_lines (old_conf : str) : list str :=
  List.filter is_passthrough (file_lines old_conf).

(** The heading and one line for each server. *)
Definition directive_block (servers : list TimeSourceData) : str :=
  heading ++ concat (map server_line servers).

Definition blank : str := [LF].

Definition is_blank (line : str) : bool := str_eqb line blank.

Definition no_LF (s : str) : bool :=
  forallb (fun c => negb (Ascii.eqb c LF)) s.

Definition no_CR (s : str) : bool :=
  forallb (fun c => negb (Ascii.eqb c CR)) s.

(** A list of lines as a text has them: every line ends with its only
    newline, but for the last one, which may lack it. *)
Inductive lines_ok : list str -> Prop :=
| lines_ok_nil : lines_ok []
| lines_ok_last l : l <> [] -> no_LF l = true -> lines_ok [l]
| lines_ok_cons body ls :
    no_LF body = true -> lines_ok ls -> lines_ok ((body ++ [LF]) :: ls).

(** The part of the data model of a time source that keeps its directive
    on one line: the type is SERVER or POOL, and there is no line break in
    the host name or in an option. *)
Definition no_line_break (s : str) : bool := no_LF s && no_CR s.

Definition fits_one_line (server : TimeSourceData) : bool :=
  (str_eqb (type server) TIME_SOURCE_SERVER
   || str_eqb (type server) TIME_SOURCE_POOL)
  && no_line_break (hostname server)
  && forallb no_line_break (options server).

(** The lines of a text up to its first blank line. *)
Fixpoint leading_block (lines : list str) : list str :=
  match lines with
  | [] => []
  | l :: ls => if is_blank l then [] else l :: leading_block ls
  end.

Definition count_lines (p : str -> bool) (lines : list str) : nat :=
  length (List.filter p lines).

Definition is_heading (line : str) : bool := str_eqb line heading.

(** What [n] rewrites leave between the directive block with its blank
    line and the lines copied from the first configuration: each rewrite
    adds a blank line and the lines of the servers that are not
    recognized as directives. *)
Fixpoint carried_over (n : nat) (servers : list TimeSourceData) : list str :=
  match n with
  | O => []
  | S n' =>
      List.filter is_passthrough (map server_line servers)
      ++ [blank] ++ carried_over n' servers
  end.

(** A well-formed time source: the type is SERVER or POOL; the host name
    is not empty and made of letters, digits, dots and dashes; an option
    is a flag of [SRV_NOARG_OPTIONS], or a name of [SRV_ARG_OPTIONS], one
    space and an argument of lower-case letters and digits. *)
Definition is_lower_alnum (c : ascii) : bool := is_lower_az c || is_digit c.

Definition is_word (w : str) : bool :=
  match w with
  | [] => false
  | _ => forallb is_lower_alnum w
  end.

Definition wf_option (o : str) : bool :=
  str_in o SRV_NOARG_OPTIONS
  || existsb (fun k => match strip_prefix (k ++ [SP]) o with
                       | Some v => is_word v
                       | None => false
                       end) SRV_ARG_OPTIONS.

Definition well_formed (server : TimeSourceData) : bool :=
  (str_eqb (type server) TIME_SOURCE_SERVER
   || str_eqb (type server) TIME_SOURCE_POOL)
  && match hostname server with [] => false | _ => true end
  && forallb is_host_char (hostname server)
  && forallb wf_option (options server).

(** What follows the host name on the line of a server. *)
Definition region_of (opts : list str) : str :=
  concat (map (cons SP) opts) ++ [LF].

Definition is_plain (c : ascii) : bool := is_lower_alnum c || is_space c.

(** The system after some more events. *)
Definition with_events (st : system) (events : list event) : system :=
  {| _cache := _cache st; threads := threads st;
     thread_counter := thread_counter st; trace := trace st ++ events |}.

Definition is_request (e : event) : bool :=
  match e with Request _ => true | _ => false end.

Definition is_set_system_time (e : event) : bool :=
  match e with SetSystemTime _ => true | _ => false end.

Definition is_callback (e : event) : bool :=
  match e with Callback _ _ => true | _ => false end.

Definition count_events (p : event -> bool) (events : list event) : nat :=
  length (List.filter p events).

(** The events of the completion callback, when there is one. *)
Definition called (callback : option nat) (success : bool) : list event :=
  match callback with
  | Some cb => [Callback cb success]
  | None => []
  end.

(** The three states of a server. *)
Definition valid_status `{Constants} (status : Z) : Prop :=
  status = NTP_SERVER_QUERY \/ status = NTP_SERVER_OK
  \/ status = NTP_SERVER_NOK.

(** The name [check_status] gives to its next thread. *)
Definition next_check_name `{Constants} (st : system) : str :=
  THREAD_NTP_SERVER_CHECK ++ decimal (S (thread_counter st)).

(** ** Examples

    The values of the constants in the installer. *)
Definition anaconda_constants : Constants :=
  {| THREAD_SYNC_TIME_BASENAME := py "AnaSyncTime";
     THREAD_NTP_SERVER_CHECK := py "AnaNTPserver";
     NTP_SERVER_OK := 0;
     NTP_SERVER_NOK := 1;
     NTP_SERVER_QUERY := 2 |}.

(** A pool and a server, and a configuration to write them to. *)
Definition example_servers : list TimeSourceData :=
  [ {| type := TIME_SOURCE_POOL;
       hostname := py "2.fedora.pool.ntp.org";
       options := [py "iburst"] |};
    {| type := TIME_SOURCE_SERVER;
       hostname := py "ntp.example.com";
       options := [py "nts"; py "minpoll 4"] |} ].

Definition example_conf : str :=
  py "# Use public servers." ++ [LF]
  ++ py "pool 0.pool.ntp.org iburst" ++ [LF]
  ++ py "driftfile /var/lib/chrony/drift" ++ [LF]
  ++ py "makestep 1.0 3" ++ [LF].

(** A server that answers with the time 3.5 s, a clock that refuses to be
    set, and a network without an answer. *)
Definition answering_world : World :=
  {| ntp_reply := fun _ => inr (7 # 2)%Q;
     connection := fun _ _ => None;
     clock_failure := fun _ => None |}.

Definition refusing_clock_world : World :=
  {| ntp_reply := fun _ => inr (7 # 2)%Q;
     connection := fun _ _ => None;
     clock_failure := fun _ => Some OtherException |}.

Definition silent_world : World :=
  {| ntp_reply := fun _ => inl NTPException;
     connection := fun _ _ => Some socket_error;
     clock_failure := fun _ => None |}.

Definition example_server : TimeSourceData :=
  {| type := TIME_SOURCE_SERVER;
     hostname := py "ntp.example.com";
     options := [py "iburst"] |}.

(** ** Tactics

    Case analysis on a character, all 256 of them. *)
Ltac by_cases_on_char c :=
  destruct c as [[] [] [] [] [] [] [] []]; vm_compute; intros;
  try reflexivity; try discriminate; try congruence.

(** Unfolding of the effects of a computation. *)
Ltac run_effects :=
  unfold _one_time_sync, ntp_server_working, client_request,
    create_connection, set_system_time, try_except, bind, emit, answer,
    fail_with, raise, ret, with_events, called in *;
  cbn [fst snd trace _cache threads thread_counter] in *.

(** ** Definitions used to state the further properties *)

(** A file system in which every path opens and reads as [text]. *)
Definition file_with (text : str) : filesystem :=
  fun _ => Opened {| contents := text; read_error := None |}.

(** The servers [get_servers_from_config] returns for a file that reads as
    [text]. *)
Definition servers_of (text : str) : list TimeSourceData :=
  parse_lines (file_lines text).

(** The error of the network call of a probe, if it raises: the connection
    to the port of the key exchange when NTS is enabled, the request of the
    time otherwise. *)
Definition network_failure (w : World) (host : str) (nts_enabled : bool)
    : option exn :=
  if nts_enabled then connection w host 4460
  else match ntp_reply w host with
       | inl e => Some e
       | inr _ => None
       end.

Definition network_call (host : str) (nts_enabled : bool) : event :=
  if nts_enabled then CreateConnection host 4460 else Request host.

(** What a probe answers. *)
Definition probe_answer (w : World) (host : str) (nts_enabled : bool)
    : exn + bool :=
  match network_failure w host nts_enabled with
  | None => inr true
  | Some OtherException => inl OtherException
  | Some _ => inr false
  end.

(** The events of one synchronisation. *)
Definition sync_events (w : World) (server : TimeSourceData)
    (callback : option nat) : list event :=
  Request (hostname server)
  :: match ntp_reply w (hostname server) with
     | inr tx_time =>
         SetSystemTime (int tx_time)
         :: match clock_failure w (int tx_time) with
            | None => called callback true
            | Some NTPException | Some gaierror => called callback false
            | Some _ => []
            end
     | inl NTPException | inl gaierror => called callback false
     | inl _ => []
     end.

(** ** [save_servers_to_config] with its files

    What the function asks of the file system, in the order of the calls;
    a [Files] says which of the calls fail. Writing to a file that is open
    and closing it are taken to succeed, and an output path is taken to name
    another file than the configuration file, which opening it for writing
    would empty before it is read. *)
Inductive file_action : Type :=
| OpenForReading (path : str)        (* open(path, "r") *)
| OpenForWriting (path : str)        (* open(path, "w") *)
| MakeTemp                           (* tempfile.mkstemp and os.fdopen *)
| CopyFile (src dst : str)           (* shutil.copyfile(src, dst) *)
| Unlink (path : str).               (* os.unlink(path) *)

Record Files : Type := {
  read_files : filesystem;
  write_failure : str -> option str;       (* strerror of open(path, "w") *)
  temp_file : io_result str;               (* mkstemp: the path it makes *)
  fdopen_failure : option str;             (* strerror of os.fdopen *)
  copy_failure : str -> str -> option str; (* strerror of shutil.copyfile *)
  unlink_failure : str -> option str       (* strerror of os.unlink *)
}.

Inductive save_outcome : Type :=
| Saved                              (* the function returns *)
| Raised (e : NTPconfigError)        (* it raises NTPconfigError *)
| RaisedIOError (strerror : str).    (* an IOError leaves it *)

Record save_result : Type := {
  outcome : save_outcome;
  new_conf_file : option (str * str);  (* the new file, what was written *)
  actions : list file_action
}.

(** [if out_file_path:] is taken for a path that is neither [None] nor
    empty. *)
Definition is_given (out_file_path : option str) : bool :=
  match out_file_path with
  | Some (_ :: _) => true
  | _ => false
  end.

Definition cannot_open_for_writing (out_file_path strerror : str) : str :=
  py "Cannot open new config file " ++ out_file_path ++ py " for writing ("
  ++ strerror ++ py ").".

Definition cannot_open_temporary (temp_path strerror : str) : str :=
  py "Cannot open temporary file " ++ temp_path ++ py " for writing ("
  ++ strerror ++ py ").".

Definition cannot_replace (strerror : str) : str :=
  py "Cannot replace the old config with the new one (" ++ strerror ++ py ").".

Definition raised (msg : str) (opened : list file_action) : save_result :=
  {| outcome := Raised (NTPconfigError_msg msg);
     new_conf_file := None;
     actions := opened |}.

(** The opening of the new file: the path given, or a temporary file. When
    [mkstemp] raises, [temp_path] is still [None] in the message. *)
Definition open_new_conf_file (files : Files) (out_file_path : option str)
    : str * file_action + str :=
  match out_file_path with
  | Some (c :: p) =>
      match write_failure files (c :: p) with
      | Some strerror => inr (cannot_open_for_writing (c :: p) strerror)
      | None => inl (c :: p, OpenForWriting (c :: p))
      end
  | _ =>
      match temp_file files with
      | IOError strerror => inr (cannot_open_temporary (py "None") strerror)
      | Opened temp_path =>
          match fdopen_failure files with
          | Some strerror => inr (cannot_open_temporary temp_path strerror)
          | None => inl (temp_path, MakeTemp)
          end
      end
  end.

Definition attempt (out_file_path : option str) : file_action :=
  match out_file_path with
  | Some (c :: p) => OpenForWriting (c :: p)
  | _ => MakeTemp
  end.

Definition save_servers_to_config_files (files : Files)
    (servers : list TimeSourceData) (conf_file_path : str)
    (out_file_path : option str) : save_result :=
  match read_files files conf_file_path with
  | IOError strerror =>
      raised (cannot_open_for_reading conf_file_path strerror)
        [OpenForReading conf_file_path]
  | Opened old_conf_file =>
      match open_new_conf_file files out_file_path with
      | inr msg =>
          raised msg [OpenForReading conf_file_path; attempt out_file_path]
      | inl (new_path, opening) =>
          let written :=
            Some (new_path,
                  save_servers_to_config servers (contents old_conf_file)) in
          let opened := [OpenForReading conf_file_path; opening] in
          match read_error old_conf_file with
          | Some strerror =>
              {| outcome := RaisedIOError strerror;
                 new_conf_file := written; actions := opened |}
          | None =>
              if is_given out_file_path then
                {| outcome := Saved;
                   new_conf_file := written; actions := opened |}
              else
                match copy_failure files new_path conf_file_path with
                | Some strerror =>
                    {| outcome := Raised (NTPconfigError_msg
                                            (cannot_replace strerror));
                       new_conf_file := written;
                       actions := opened
                                  ++ [CopyFile new_path conf_file_path] |}
                | None =>
                    match unlink_failure files new_path with
                    | Some strerror =>
                        {| outcome := Raised (NTPconfigError_msg
                                                (cannot_replace strerror));
                           new_conf_file := written;
                           actions := opened
                                      ++ [CopyFile new_path conf_file_path;
                                          Unlink new_path] |}
                    | None =>
                        {| outcome := Saved;
                           new_conf_file := written;
                           actions := opened
                                      ++ [CopyFile new_path conf_file_path;
                                          Unlink new_path] |}
                    end
                end
          end
      end
  end.

(** Files without a failure: every path reads as [text], and [mkstemp]
    makes [temp_path]. *)
Definition sound_files (text temp_path : str) : Files :=
  {| read_files := file_with text;
     write_failure := fun _ => None;
     temp_file := Opened temp_path;
     fdopen_failure := None;
     copy_failure := fun _ _ => None;
     unlink_failure := fun _ => None |}.

(** ** The summaries

    [_] of [pyanaconda.core.i18n], which gives the translation of a text;
    [N_] only marks a text and returns it. *)
Class I18n : Type := {
  gettext : str -> str
}.

Section Summaries.
Context `{Constants} `{I18n}.

(** The dictionary of the descriptions; in a dictionary display a key
    that comes again replaces the one before. *)
Definition NTP_SERVER_STATUS_DESCRIPTIONS : gmap Z str :=
  <[NTP_SERVER_QUERY := py "checking status"]>
    (<[NTP_SERVER_NOK := py "status: not working"]>
       (<[NTP_SERVER_OK := py "status: working"]> ∅)).

(** [NTP_SERVER_STATUS_DESCRIPTIONS[status]] raises [KeyError] for a
    status that is no key; the module does not name this error. *)
Definition get_status_description (server : TimeSourceData) : M str :=
  (status <~ get_status server ;
   match NTP_SERVER_STATUS_DESCRIPTIONS !! status with
   | Some description => ret (gettext description)
   | None => raise OtherException
   end)%M.

Definition get_ntp_server_summary (server : TimeSourceData) : M str :=
  (description <~ get_status_description server ;
   ret (hostname server ++ py " (" ++ description ++ py ")"))%M.

Fixpoint add_summaries (servers : list TimeSourceData) (summary : str)
    : M str :=
  match servers with
  | [] => ret summary
  | server :: rest =>
      (line <~ get_ntp_server_summary server ;
       add_summaries rest (summary ++ [LF] ++ line))%M
  end.

Definition get_ntp_servers_summary (servers : list TimeSourceData) : M str :=
  (summary <~ add_summaries servers (gettext (py "NTP servers:")) ;
   match servers with
   | [] => ret (summary ++ py " " ++ gettext (py "not configured"))
   | _ => ret summary
   end)%M.

(** The description of the state the cache holds for a server. *)
Definition description_of (st : system) (server : TimeSourceData) : str :=
  default []
    (NTP_SERVER_STATUS_DESCRIPTIONS
       !! default NTP_SERVER_QUERY (_cache st !! hostname server)).

Definition summary_line (st : system) (server : TimeSourceData) : str :=
  [LF] ++ hostname server ++ py " (" ++ gettext (description_of st server)
  ++ py ")".

End Summaries.

(** Translations that leave every text as it is. *)
Definition no_translation : I18n := {| gettext := fun s => s |}.

(** The system after a check of the server of the example. *)
Definition checked_system : system :=
  snd (@check_status anaconda_constants example_server initial_system).

(** The system after a request to synchronise with the server of the
    example. *)
Definition syncing_system : system :=
  snd (@one_time_sync_async anaconda_constants example_server None
         initial_system).

(** Case analysis on the calls of [save_servers_to_config_files]. *)
Ltac save_cases :=
  unfold save_servers_to_config_files, open_new_conf_file, raised, attempt,
    is_given in *;
  repeat case_match; simplify_eq;
  cbn [outcome new_conf_file actions app In] in *.

Ltac settle :=
  solve [ intuition (simplify_eq; eauto 8)
        | firstorder (simplify_eq; eauto 8) ].

(** * Properties *)

(** ** The code on some inputs *)

Example match_directive :
  re_match SRV_LINE_REGEXP (py "  pool  2.fedora.pool.ntp.org iburst" ++ [LF])
  = Some [(3, py "iburst" ++ [LF]); (2, py "2.fedora.pool.ntp.org");
          (1, py "pool")].
Proof. reflexivity. Qed.

Example no_match_comment :
  re_match SRV_LINE_REGEXP (py "#server 0.fedora.pool.ntp.org iburst" ++ [LF])
  = None.
Proof. reflexivity. Qed.

Example no_match_underscore :
  re_match SRV_LINE_REGEXP (py "server my_host iburst" ++ [LF]) = None.
Proof. reflexivity. Qed.

Example parse_upper_case_options :
  parse_line (py "pool x KEY 5 Minpoll" ++ [LF])
  = Some {| type := py "POOL"; hostname := py "x"; options := [py "key 5"] |}.
Proof. reflexivity. Qed.

Example split_words :
  split (py "  iburst   minpoll 4 " ++ [LF])
  = [py "iburst"; py "minpoll"; py "4"].
Proof. reflexivity. Qed.

Example lines_of_crlf_text :
  file_lines (py "a" ++ [CR; LF] ++ py "b" ++ [CR] ++ py "c")
  = [py "a" ++ [LF]; py "b" ++ [LF]; py "c"].
Proof. reflexivity. Qed.

Example save_example :
  save_servers_to_config example_servers example_conf
  = heading
    ++ py "pool 2.fedora.pool.ntp.org iburst" ++ [LF]
    ++ py "server ntp.example.com nts minpoll 4" ++ [LF]
    ++ [LF]
    ++ py "# Use public servers." ++ [LF]
    ++ py "driftfile /var/lib/chrony/drift" ++ [LF]
    ++ py "makestep 1.0 3" ++ [LF].
Proof. reflexivity. Qed.

Example sync_with_answer :
  _one_time_sync answering_world example_server (Some 0%nat) initial_system
  = (inr true,
     with_events initial_system
       [Request (py "ntp.example.com"); SetSystemTime 3; Callback 0 true]).
Proof. reflexivity. Qed.

Example sync_without_answer :
  _one_time_sync silent_world example_server (Some 0%nat) initial_system
  = (inr false,
     with_events initial_system
       [Request (py "ntp.example.com"); Callback 0 false]).
Proof. reflexivity. Qed.

Example probe_with_nts :
  ntp_server_working silent_world (py "ntp.example.com") true initial_system
  = (inr false,
     with_events initial_system [CreateConnection (py "ntp.example.com") 4460]).
Proof. reflexivity. Qed.

(** ** Characters *)

Lemma space_not_host c : is_space c = true -> is_host_char c = false.
Proof. by_cases_on_char c. Qed.

Lemma host_not_space c : is_host_char c = true -> is_space c = false.
Proof. by_cases_on_char c. Qed.

Lemma space_is_option_char c : is_space c = true -> is_option_char c = true.
Proof. unfold is_option_char. intros ->. apply orb_true_r. Qed.

Lemma option_char_cases c :
  is_option_char c = true -> is_space c = true \/ is_host_char c = true.
Proof. by_cases_on_char c; auto. Qed.

Lemma space_not_s c : is_space c = true -> Ascii.eqb "s" c = false.
Proof. by_cases_on_char c. Qed.

Lemma space_not_p c : is_space c = true -> Ascii.eqb "p" c = false.
Proof. by_cases_on_char c. Qed.

Lemma not_option_char_not_LF c :
  is_option_char c = false -> Ascii.eqb c LF = false.
Proof. by_cases_on_char c. Qed.

(** ** The backtracking search on the directive pattern *)

Section Search.
Implicit Types (s t : str) (g : groups) (k : str -> groups -> option groups).

Lemma or_else_None {A} (x : option A) : or_else x None = x.
Proof. destruct x; reflexivity. Qed.

Lemma strip_prefix_app p s s' : strip_prefix p s = Some s' -> s = p ++ s'.
Proof.
  revert s. induction p as [|a p IH]; intros [|b s]; simpl; try congruence.
  destruct (Ascii.eqb_spec a b); try discriminate.
  intros Hs. subst b. f_equal. apply IH, Hs.
Qed.

Lemma strip_prefix_here p s : strip_prefix p (p ++ s) = Some s.
Proof.
  induction p as [|a p IH]; simpl; auto. now rewrite Ascii.eqb_refl.
Qed.

Lemma firstn_consumed {A} (p s : list A) :
  firstn (length (p ++ s) - length s) (p ++ s) = p.
Proof.
  rewrite length_app.
  replace (length p + length s - length s)%nat with (length p) by lia.
  rewrite firstn_app, firstn_all, Nat.sub_diag. simpl. apply app_nil_r.
Qed.

Lemma take_drop_while p s : take_while p s ++ drop_while p s = s.
Proof.
  induction s as [|c s IH]; simpl; auto.
  destruct (p c); simpl; congruence.
Qed.

Lemma drop_while_app p pre t :
  forallb p pre = true -> drop_while p (pre ++ t) = drop_while p t.
Proof.
  induction pre as [|c pre IH]; simpl; auto.
  destruct (p c); simpl; auto. discriminate.
Qed.

Lemma take_while_app p pre t :
  forallb p pre = true -> take_while p (pre ++ t) = pre ++ take_while p t.
Proof.
  induction pre as [|c pre IH]; simpl; auto.
  destruct (p c); simpl; try discriminate. intros Hp. now rewrite IH.
Qed.

Lemma take_while_all p s : forallb p (take_while p s) = true.
Proof.
  induction s as [|c s IH]; simpl; auto.
  destruct (p c) eqn:E; simpl; auto. now rewrite E.
Qed.

Lemma drop_while_stops p s c t : drop_while p s = c :: t -> p c = false.
Proof.
  induction s as [|d s IH]; simpl; try discriminate.
  destruct (p d) eqn:E; auto. intros [= -> ->]. exact E.
Qed.

Lemma forallb_drop_while p q s :
  forallb q s = true -> forallb q (drop_while p s) = true.
Proof.
  induction s as [|c s IH]; simpl; auto.
  intros [Hc Hs]%andb_prop. destruct (p c); simpl; auto.
  now rewrite Hc, Hs.
Qed.

(** A repetition whose continuation refuses every text that starts in
    the class can only stop where the class stops. *)
Lemma star_skip cls s g k :
  (forall c t g', cls c = true -> k (c :: t) g' = None) ->
  star cls s g k = k (drop_while cls s) g.
Proof.
  intros Hk. induction s as [|c s IH]; simpl; auto.
  destruct (cls c) eqn:E; auto.
  now rewrite IH, (Hk c s g E), or_else_None.
Qed.

(** The longest repetition is tried first. *)
Lemma star_longest cls s g k r :
  k (drop_while cls s) g = Some r -> star cls s g k = Some r.
Proof.
  induction s as [|c s IH]; simpl; auto.
  destruct (cls c); auto. intros Hr. now rewrite (IH Hr).
Qed.

Lemma star_fails cls s g k :
  (forall pre t, s = pre ++ t -> forallb cls pre = true -> k t g = None) ->
  star cls s g k = None.
Proof.
  induction s as [|c s IH]; intros Hk; simpl.
  - now apply (Hk [] []).
  - assert (Hhere : k (c :: s) g = None) by now apply (Hk [] (c :: s)).
    destruct (cls c) eqn:E; auto.
    rewrite IH, Hhere; auto.
    intros pre t -> Hpre. apply (Hk (c :: pre) t); auto.
    simpl. now rewrite E.
Qed.

(** The region of the options and the end of the line. *)
Lemma star_options_eol whole region pre t g :
  region = pre ++ t ->
  star is_option_char t g
    (fun s' g' =>
       run whole Eol s'
         ((3, firstn (length region - length s') region) :: g') accept)
  = if forallb is_option_char t then Some ((3, region) :: g) else None.
Proof.
  revert pre. induction t as [|c t IH]; intros pre Hregion; cbn [star forallb].
  - cbn [run]. unfold accept. now rewrite Nat.sub_0_r, firstn_all.
  - destruct (is_option_char c) eqn:E; cbn [andb].
    + rewrite (IH (pre ++ [c])) by now rewrite <- app_assoc.
      destruct (forallb is_option_char t) eqn:Et; auto.
      destruct t; [discriminate|reflexivity].
    + cbn [run]. destruct t; auto.
      now rewrite (not_option_char_not_LF c E).
Qed.

Lemma run_options whole s g :
  run whole (Opt is_space ~~ Group 3 (Star is_option_char) ~~ Eol)%re s g accept
  = if forallb is_option_char s then Some ((3, options_region s) :: g)
    else None.
Proof.
  assert (Hregion : forall t g',
    run whole (Group 3 (Star is_option_char) ~~ Eol)%re t g' accept
    = if forallb is_option_char t then Some ((3, t) :: g') else None).
  { intros t g'. apply (star_options_eol whole t [] t g'). reflexivity. }
  change (run whole (Opt is_space ~~ Group 3 (Star is_option_char) ~~ Eol)%re
            s g accept)
    with (match s with
          | c :: s' =>
              if is_space c
              then or_else
                     (run whole (Group 3 (Star is_option_char) ~~ Eol)%re
                        s' g accept)
                     (run whole (Group 3 (Star is_option_char) ~~ Eol)%re
                        s g accept)
              else run whole (Group 3 (Star is_option_char) ~~ Eol)%re
                     s g accept
          | [] => run whole (Group 3 (Star is_option_char) ~~ Eol)%re
                    s g accept
          end).
  destruct s as [|c s]; [apply Hregion|].
  destruct (is_space c) eqn:E; rewrite !Hregion; simpl; rewrite ?E; auto.
  rewrite (space_is_option_char c E). simpl.
  destruct (forallb is_option_char s); reflexivity.
Qed.

Lemma firstn_take_while p s :
  firstn (length s - length (drop_while p s)) s = take_while p s.
Proof.
  rewrite <- (take_drop_while p s) at 1 3. apply firstn_consumed.
Qed.

Lemma run_host whole s g :
  run whole (Group 2 (Plus is_host_char) ~~ Opt is_space
             ~~ Group 3 (Star is_option_char) ~~ Eol)%re s g accept
  = match scan_host s with
    | Some (host, region) => Some ((3, region) :: (2, host) :: g)
    | None => None
    end.
Proof.
  unfold scan_host.
  change (run whole (Group 2 (Plus is_host_char) ~~ Opt is_space
             ~~ Group 3 (Star is_option_char) ~~ Eol)%re s g accept)
    with (match s with
          | c :: s' =>
              if is_host_char c
              then star is_host_char s' g
                     (fun t g' =>
                        run whole (Opt is_space
                           ~~ Group 3 (Star is_option_char) ~~ Eol)%re t
                          ((2, firstn (length s - length t) s) :: g') accept)
              else None
          | [] => None
          end).
  destruct s as [|c s]; cbn [take_while drop_while]; auto.
  destruct (is_host_char c) eqn:E; auto.
  destruct (forallb is_option_char (drop_while is_host_char s)) eqn:Eo.
  - apply star_longest. cbv beta. rewrite run_options, Eo.
    pose proof (firstn_take_while is_host_char (c :: s)) as Hf.
    cbn [take_while drop_while] in Hf. rewrite E in Hf. now rewrite Hf.
  - apply star_fails. intros pre t -> Hpre. cbv beta. rewrite run_options.
    destruct (forallb is_option_char t) eqn:Et; auto.
    apply (forallb_drop_while is_host_char) in Et.
    rewrite <- (drop_while_app _ pre t Hpre) in Et. congruence.
Qed.

Lemma run_host_after_space whole c t g :
  is_space c = true ->
  run whole (Group 2 (Plus is_host_char) ~~ Opt is_space
             ~~ Group 3 (Star is_option_char) ~~ Eol)%re (c :: t) g accept
  = None.
Proof.
  intros Hc. rewrite run_host. unfold scan_host. simpl.
  now rewrite (space_not_host c Hc).
Qed.

Lemma run_type whole s g :
  run whole (Group 1 (Alt (Lit (py "server")) (Lit (py "pool")))
             ~~ Star is_space ~~ Group 2 (Plus is_host_char) ~~ Opt is_space
             ~~ Group 3 (Star is_option_char) ~~ Eol)%re s g accept
  = match type_token s with
    | Some (ty, s') =>
        match scan_host (drop_while is_space s') with
        | Some (host, region) =>
            Some ((3, region) :: (2, host) :: (1, ty) :: g)
        | None => None
        end
    | None => None
    end.
Proof.
  assert (Hrest : forall t g',
    run whole (Star is_space ~~ Group 2 (Plus is_host_char) ~~ Opt is_space
               ~~ Group 3 (Star is_option_char) ~~ Eol)%re t g' accept
    = match scan_host (drop_while is_space t) with
      | Some (host, region) => Some ((3, region) :: (2, host) :: g')
      | None => None
      end).
  { intros t g'. rewrite <- run_host with (whole := whole).
    change (run whole (Star is_space ~~ ?r)%re t g' accept)
      with (star is_space t g' (fun s' g'' => run whole r s' g'' accept)).
    apply star_skip. intros c u g'' Hc. now apply run_host_after_space. }
  change (run whole (Group 1 (Alt (Lit (py "server")) (Lit (py "pool")))
             ~~ ?r)%re s g accept)
    with (or_else
            (match strip_prefix (py "server") s with
             | Some s' =>
                 run whole r s' ((1, firstn (length s - length s') s) :: g)
                   accept
             | None => None
             end)
            (match strip_prefix (py "pool") s with
             | Some s' =>
                 run whole r s' ((1, firstn (length s - length s') s) :: g)
                   accept
             | None => None
             end)).
  unfold type_token.
  destruct (strip_prefix (py "server") s) as [s'|] eqn:Es.
  - pose proof (strip_prefix_app _ _ _ Es) as ->.
    rewrite (firstn_consumed (py "server") s'), Hrest.
    replace (strip_prefix (py "pool") (py "server" ++ s')) with (@None str)
      by reflexivity.
    apply or_else_None.
  - cbn [or_else].
    destruct (strip_prefix (py "pool") s) as [s'|] eqn:Ep; auto.
    pose proof (strip_prefix_app _ _ _ Ep) as ->.
    now rewrite (firstn_consumed (py "pool") s'), Hrest.
Qed.

Lemma type_token_after_space c t : is_space c = true -> type_token (c :: t) = None.
Proof.
  intros Hc. unfold type_token, py. cbn [list_ascii_of_string strip_prefix].
  now rewrite (space_not_s c Hc), (space_not_p c Hc).
Qed.

(** The search finds what the scan from left to right finds. *)
Lemma re_match_scan line : re_match SRV_LINE_REGEXP line = scan_groups line.
Proof.
  unfold re_match, SRV_LINE_REGEXP, scan_groups, scan_directive.
  change (run line (Bol ~~ Star is_space ~~ ?r)%re line [] accept)
    with (if (length line =? length line)%nat
          then star is_space line [] (fun s' g' => run line r s' g' accept)
          else None).
  rewrite Nat.eqb_refl, star_skip.
  - rewrite run_type.
    destruct (type_token (drop_while is_space line)) as [[ty s]|]; auto.
    destruct (scan_host (drop_while is_space s)) as [[host region]|]; auto.
  - intros c t g' Hc. rewrite run_type. now rewrite type_token_after_space.
Qed.

End Search.

(** ** Which lines are directives *)

Lemma is_directive_scan line :
  is_directive line = match scan_directive line with Some _ => true | None => false end.
Proof.
  unfold is_directive. rewrite re_match_scan. unfold scan_groups.
  destruct (scan_directive line) as [[[ty host] region]|]; reflexivity.
Qed.

Lemma parse_line_scan line :
  parse_line line =
  match scan_directive line with
  | Some (ty, host, region) =>
      Some {| type := upper ty; hostname := host;
              options := parse_options (split (lower region)) |}
  | None => None
  end.
Proof.
  unfold parse_line. rewrite re_match_scan. unfold scan_groups.
  destruct (scan_directive line) as [[[ty host] region]|]; reflexivity.
Qed.

Lemma parse_line_directive line :
  is_directive line = true <-> exists server, parse_line line = Some server.
Proof.
  unfold is_directive, parse_line.
  destruct (re_match SRV_LINE_REGEXP line); split; eauto; try discriminate.
  intros [server Hs]. discriminate.
Qed.

Lemma type_token_cases s ty s' :
  type_token s = Some (ty, s') ->
  s = ty ++ s' /\ (ty = py "server" \/ ty = py "pool").
Proof.
  unfold type_token.
  destruct (strip_prefix (py "server") s) as [t|] eqn:Es.
  - intros [= <- <-]. split; auto. now apply strip_prefix_app.
  - destruct (strip_prefix (py "pool") s) as [t|] eqn:Ep; try discriminate.
    intros [= <- <-]. split; auto. now apply strip_prefix_app.
Qed.

Lemma type_token_here ty s :
  ty = py "server" \/ ty = py "pool" -> type_token (ty ++ s) = Some (ty, s).
Proof.
  unfold type_token. intros [-> | ->].
  - now rewrite strip_prefix_here.
  - replace (strip_prefix (py "server") (py "pool" ++ s)) with (@None str)
      by reflexivity.
    now rewrite strip_prefix_here.
Qed.

Lemma drop_while_space_type ty s :
  ty = py "server" \/ ty = py "pool" ->
  drop_while is_space (ty ++ s) = ty ++ s.
Proof. intros [-> | ->]; reflexivity. Qed.

Lemma drop_while_space_host host s :
  host <> [] -> forallb is_host_char host = true ->
  drop_while is_space (host ++ s) = host ++ s.
Proof.
  destruct host as [|c host]; [congruence|]. cbn [forallb app drop_while].
  intros _ [Hc _]%andb_prop. now rewrite (host_not_space c Hc).
Qed.

Lemma scan_host_shape host rest :
  host <> [] -> forallb is_host_char host = true ->
  forallb is_option_char rest = true ->
  scan_host (host ++ rest) =
  Some (host ++ take_while is_host_char rest,
        options_region (drop_while is_host_char rest)).
Proof.
  intros Hne Hhost Hrest. unfold scan_host.
  rewrite (take_while_app _ _ _ Hhost), (drop_while_app _ _ _ Hhost).
  rewrite (forallb_drop_while _ _ _ Hrest).
  destruct host; [congruence|reflexivity].
Qed.

Lemma scan_directive_shape line ws ty ws' host rest :
  directive_shape line ws ty ws' host rest ->
  scan_directive line =
  Some (ty, host ++ take_while is_host_char rest,
        options_region (drop_while is_host_char rest)).
Proof.
  intros (-> & Hws & Hty & Hws' & Hne & Hhost & Hrest).
  unfold scan_directive.
  rewrite (drop_while_app _ _ _ Hws), (drop_while_space_type _ _ Hty).
  rewrite (type_token_here _ _ Hty).
  rewrite (drop_while_app _ _ _ Hws'), (drop_while_space_host _ _ Hne Hhost).
  now rewrite (scan_host_shape _ _ Hne Hhost Hrest).
Qed.

Lemma scan_directive_inv line ty host region :
  scan_directive line = Some (ty, host, region) ->
  exists ws ws' rest,
    directive_shape line ws ty ws' host rest
    /\ region = options_region rest
    /\ take_while is_host_char rest = [].
Proof.
  unfold scan_directive.
  destruct (type_token (drop_while is_space line)) as [[ty' s]|] eqn:Et;
    try discriminate.
  destruct (scan_host (drop_while is_space s)) as [[host' region']|] eqn:Eh;
    try discriminate.
  intros [= -> -> ->].
  destruct (type_token_cases _ _ _ Et) as [Hline Hty].
  unfold scan_host in Eh.
  destruct (take_while is_host_char (drop_while is_space s)) as [|c h] eqn:Ehost;
    try discriminate.
  destruct (forallb is_option_char
              (drop_while is_host_char (drop_while is_space s))) eqn:Eo;
    try discriminate.
  injection Eh as <- <-.
  exists (take_while is_space line), (take_while is_space s),
    (drop_while is_host_char (drop_while is_space s)).
  split; [|split]; auto.
  - unfold directive_shape. rewrite <- Ehost.
    rewrite take_drop_while, take_drop_while, <- Hline, take_drop_while.
    rewrite !take_while_all, Ehost. repeat split; auto; discriminate.
  - destruct (drop_while is_host_char (drop_while is_space s)) as [|d u] eqn:Ed;
      auto.
    cbn [take_while]. now rewrite (drop_while_stops _ _ _ _ Ed).
Qed.

(** C2, as the code has it: a line is a directive exactly when it is made of
    optional whitespace, the token server or pool, whitespace that may be
    absent, a host name of letters, digits, dots and dashes that is not
    empty, and a rest of letters, digits and whitespace. The directives
    are the lines that give a server when read, and a rewrite copies none
    of them. *)
Theorem directive_grammar line :
  (is_directive line = true <->
   exists ws ty ws' host rest, directive_shape line ws ty ws' host rest)
  /\ (is_directive line = true <-> exists server, parse_line line = Some server)
  /\ (forall new_conf_file,
        copy_line new_conf_file line
        = if is_directive line then new_conf_file
          else if str_eqb line heading then new_conf_file
               else new_conf_file ++ line).
Proof.
  split; [|split].
  - rewrite is_directive_scan. split.
    + destruct (scan_directive line) as [[[ty host] region]|] eqn:Es;
        try discriminate.
      intros _.
      destruct (scan_directive_inv _ _ _ _ Es) as (ws & ws' & rest & Hs & _).
      now exists ws, ty, ws', host, rest.
    + intros (ws & ty & ws' & host & rest & Hs).
      now rewrite (scan_directive_shape _ _ _ _ _ _ Hs).
  - apply parse_line_directive.
  - intros f. unfold copy_line, write.
    destruct (is_directive line); auto. now destruct (str_eqb line heading).
Qed.

(** C2, as the claim states it, fails: in [serverfoo] the host name follows
    the type token at once, and the line is a directive all the same; it is
    parsed as the server [foo] and it is not copied by a rewrite. *)
Lemma directive_without_space :
  let line := py "serverfoo" ++ [LF] in
  type_then_space line = false
  /\ is_directive line = true
  /\ parse_line line =
     Some {| type := py "SERVER"; hostname := py "foo"; options := [] |}
  /\ copy_line [] line = []
  /\ ~ (forall l, is_directive l = true -> type_then_space l = true).
Proof.
  repeat split; try reflexivity.
  intros Hall. specialize (Hall (py "serverfoo" ++ [LF]) eq_refl).
  discriminate.
Qed.

(** ** The options of a directive *)

Lemma nth_middle_word (pre : list str) w rest :
  nth (length pre) (pre ++ w :: rest) [] = w.
Proof. induction pre; simpl; auto. Qed.

Lemma slice_two (pre : list str) w a rest :
  slice (pre ++ w :: a :: rest) (length pre) (length pre + 2) = [w; a].
Proof.
  unfold slice. replace (length pre + 2 - length pre)%nat with 2%nat by lia.
  rewrite skipn_app, skipn_all, Nat.sub_diag. reflexivity.
Qed.

(** The loop over the indices, started in the middle of the words: with
    [skip_argument] unset it treats the words that are left; with
    [skip_argument] set it drops the first of them. *)
Lemma option_loop rest :
  forall pre opts,
    snd (fold_left (option_step (pre ++ rest))
           (seq (length pre) (length rest)) (false, opts))
    = opts ++ consume_options rest
    /\ snd (fold_left (option_step (pre ++ rest))
              (seq (length pre) (length rest)) (true, opts))
       = opts ++ consume_options (tl rest).
Proof.
  induction rest as [|w rest IH]; intros pre opts.
  - simpl. now rewrite app_nil_r.
  - assert (Hnext : forall st,
      fold_left (option_step (pre ++ w :: rest))
        (seq (length pre) (length (w :: rest))) st
      = fold_left (option_step ((pre ++ [w]) ++ rest))
          (seq (length (pre ++ [w])) (length rest))
          (option_step (pre ++ w :: rest) st (length pre))).
    { intros st. rewrite <- app_assoc, length_app. simpl.
      now rewrite Nat.add_1_r. }
    rewrite !Hnext. destruct (IH (pre ++ [w]) opts) as [IH1 IH2].
    split; [|exact IH1].
    unfold option_step at 2. rewrite nth_middle_word. cbn [consume_options].
    destruct (str_in w SRV_NOARG_OPTIONS).
    { destruct (IH (pre ++ [w]) (opts ++ [w])) as [-> _].
      now rewrite <- app_assoc. }
    destruct (str_in w SRV_ARG_OPTIONS); cbn [andb]; auto.
    destruct rest as [|a rest].
    + replace (length pre + 1 <? length (pre ++ [w]))%nat with false; auto.
      symmetry. apply Nat.ltb_ge. rewrite length_app. simpl. lia.
    + replace (length pre + 1 <? length (pre ++ w :: a :: rest))%nat with true.
      2:{ symmetry. apply Nat.ltb_lt. rewrite length_app. simpl. lia. }
      rewrite slice_two.
      destruct (IH (pre ++ [w]) (opts ++ [join [SP] [w; a]])) as [_ ->].
      cbn [tl join]. now rewrite <- app_assoc.
Qed.

Lemma parse_options_consume words :
  parse_options words = consume_options words.
Proof.
  unfold parse_options. destruct (option_loop words [] []) as [Hloop _].
  exact Hloop.
Qed.


(** ** Texts and their lines *)

Lemma readlines_complete body s :
  no_LF body = true ->
  readlines (body ++ LF :: s) = (body ++ [LF]) :: readlines s.
Proof.
  induction body as [|c body IH]; simpl; auto.
  intros [Hc Hb]%andb_prop. rewrite (IH Hb).
  now destruct (Ascii.eqb c LF).
Qed.

Lemma readlines_partial s : s <> [] -> no_LF s = true -> readlines s = [s].
Proof.
  induction s as [|c s IH]; [congruence|]. intros _. simpl.
  intros [Hc Hs]%andb_prop. destruct (Ascii.eqb c LF); [discriminate|].
  destruct s as [|d s]; auto. rewrite IH; auto; discriminate.
Qed.

Lemma readlines_concat ls : lines_ok ls -> readlines (concat ls) = ls.
Proof.
  induction 1 as [|l Hne Hl|body ls Hbody Hls IH]; simpl; auto.
  - rewrite app_nil_r. now apply readlines_partial.
  - rewrite <- app_assoc. simpl. now rewrite readlines_complete, IH.
Qed.

Lemma readlines_lines_ok s : lines_ok (readlines s).
Proof.
  induction s as [|c s IH]; simpl; [constructor|].
  destruct (Ascii.eqb c LF) eqn:E.
  - apply Ascii.eqb_eq in E. subst c. now apply (lines_ok_cons []).
  - inversion IH as [|l Hne Hl|body ls Hbody Hls].
    + apply lines_ok_last; [discriminate|]. simpl. now rewrite E.
    + apply lines_ok_last; [discriminate|]. simpl. now rewrite E.
    + apply (lines_ok_cons (c :: body)); auto. simpl. now rewrite E.
Qed.

Lemma concat_readlines s : concat (readlines s) = s.
Proof.
  induction s as [|c s IH]; simpl; auto.
  destruct (Ascii.eqb c LF); simpl; [congruence|].
  destruct (readlines s) as [|l ls]; simpl in *; congruence.
Qed.

Lemma readlines_nil s : readlines s = [] -> s = [].
Proof. intros Hs. now rewrite <- (concat_readlines s), Hs. Qed.

Lemma readlines_app_LF a b :
  readlines (a ++ LF :: b) = readlines (a ++ [LF]) ++ readlines b.
Proof.
  induction a as [|c a IH]; simpl; auto.
  destruct (Ascii.eqb c LF); simpl; [congruence|].
  rewrite IH. destruct (readlines (a ++ [LF])) as [|l ls] eqn:E; auto.
  apply readlines_nil in E. now destruct a.
Qed.

Lemma lines_ok_filter p ls : lines_ok ls -> lines_ok (List.filter p ls).
Proof.
  induction 1 as [|l Hne Hl|body ls Hbody Hls IH]; simpl.
  - constructor.
  - destruct (p l); constructor; auto.
  - destruct (p (body ++ [LF])); auto. now constructor.
Qed.

Lemma lines_ok_app l1 l2 :
  Forall (fun l => exists body, l = body ++ [LF] /\ no_LF body = true) l1 ->
  lines_ok l2 -> lines_ok (l1 ++ l2).
Proof.
  induction 1 as [|l l1 (body & -> & Hbody) _ IH]; simpl; auto.
  intros Hl2. constructor; auto.
Qed.

Lemma forallb_concat {A} (p : A -> bool) (ls : list (list A)) :
  forallb p (concat ls) = forallb (forallb p) ls.
Proof.
  induction ls as [|l ls IH]; simpl; auto. now rewrite forallb_app, IH.
Qed.

Lemma forallb_filter {A} (p q : A -> bool) (l : list A) :
  forallb p l = true -> forallb p (List.filter q l) = true.
Proof.
  induction l as [|x l IH]; simpl; auto.
  intros [Hx Hl]%andb_prop. destruct (q x); simpl; auto.
  now rewrite Hx, IH.
Qed.

Lemma universal_newlines_cons c s :
  universal_newlines (c :: s) =
  if Ascii.eqb c CR then
    LF :: match s with
          | d :: s'' =>
              if Ascii.eqb d LF then universal_newlines s''
              else universal_newlines s
          | [] => []
          end
  else c :: universal_newlines s.
Proof. reflexivity. Qed.

Lemma universal_newlines_no_CR s : no_CR (universal_newlines s) = true.
Proof.
  assert (H : forall n s, (length s <= n)%nat ->
                          no_CR (universal_newlines s) = true).
  { clear s. induction n as [|n IH]; intros [|c s] Hlen;
      try reflexivity; cbn [length] in Hlen; try lia.
    rewrite universal_newlines_cons. destruct (Ascii.eqb c CR) eqn:E.
    - change (no_CR (LF :: ?x)) with (no_CR x).
      destruct s as [|d s]; [reflexivity|].
      cbn [length] in Hlen. destruct (Ascii.eqb d LF); apply IH;
        cbn [length]; lia.
    - unfold no_CR. cbn [forallb]. rewrite E. apply IH. lia. }
  now apply (H (length s)).
Qed.

Lemma universal_newlines_id s : no_CR s = true -> universal_newlines s = s.
Proof.
  induction s as [|c s IH]; simpl; auto.
  intros [Hc Hs]%andb_prop. destruct (Ascii.eqb c CR); [discriminate|].
  now rewrite IH.
Qed.

Lemma file_lines_no_CR old_conf : forallb no_CR (file_lines old_conf) = true.
Proof.
  unfold file_lines.
  pose proof (universal_newlines_no_CR old_conf) as Htext.
  rewrite <- (concat_readlines (universal_newlines old_conf)) in Htext.
  unfold no_CR in Htext. rewrite forallb_concat in Htext. exact Htext.
Qed.

Lemma file_lines_ok old_conf : lines_ok (file_lines old_conf).
Proof. apply readlines_lines_ok. Qed.

Lemma passthrough_lines_ok old_conf : lines_ok (passthrough_lines old_conf).
Proof. apply lines_ok_filter, file_lines_ok. Qed.

Lemma passthrough_lines_no_CR old_conf :
  no_CR (concat (passthrough_lines old_conf)) = true.
Proof.
  unfold no_CR. rewrite forallb_concat.
  apply (forallb_filter no_CR), file_lines_no_CR.
Qed.

(** ** What a rewrite writes *)

Lemma fold_write {A} (line_of : A -> str) (xs : list A) (f : str) :
  fold_left (fun f x => write f (line_of x)) xs f
  = f ++ concat (map line_of xs).
Proof.
  revert f. induction xs as [|x xs IH]; intros f; simpl.
  - now rewrite app_nil_r.
  - rewrite IH. unfold write. now rewrite <- app_assoc.
Qed.

Lemma fold_copy_line lines f :
  fold_left copy_line lines f
  = f ++ concat (List.filter is_passthrough lines).
Proof.
  revert f. induction lines as [|l lines IH]; intros f; simpl.
  - now rewrite app_nil_r.
  - rewrite IH. unfold copy_line. fold (is_passthrough l).
    destruct (is_passthrough l); auto.
    unfold write. simpl. now rewrite <- app_assoc.
Qed.

Lemma save_servers_text servers old_conf :
  save_servers_to_config servers old_conf
  = directive_block servers ++ [LF] ++ concat (passthrough_lines old_conf).
Proof.
  unfold save_servers_to_config, directive_block, passthrough_lines.
  rewrite fold_copy_line, fold_write. unfold write. simpl.
  now rewrite <- !app_assoc.
Qed.

Lemma server_line_ends server :
  exists body, server_line server = body ++ [LF].
Proof. unfold server_line. eauto. Qed.

Lemma directive_block_ends servers :
  exists body, directive_block servers = body ++ [LF].
Proof.
  unfold directive_block.
  destruct servers as [|server servers _] using rev_ind.
  - exists (py "# These servers were defined in the installation:").
    cbn [map concat]. now rewrite app_nil_r.
  - destruct (server_line_ends server) as [b Hb].
    exists (heading ++ concat (map server_line servers) ++ b).
    rewrite map_app, concat_app. cbn [map concat].
    rewrite Hb, app_nil_r. now rewrite <- !app_assoc.
Qed.

Lemma readlines_save servers old_conf :
  readlines (save_servers_to_config servers old_conf)
  = readlines (directive_block servers) ++ [blank]
    ++ passthrough_lines old_conf.
Proof.
  rewrite save_servers_text.
  destruct (directive_block_ends servers) as [body ->].
  rewrite <- app_assoc. simpl. rewrite readlines_app_LF. f_equal.
  change (LF :: concat (passthrough_lines old_conf))
    with ([] ++ LF :: concat (passthrough_lines old_conf)).
  rewrite readlines_complete by reflexivity.
  now rewrite readlines_concat by apply passthrough_lines_ok.
Qed.


(** ** Rewriting more than once *)

Lemma str_eqb_eq a b : str_eqb a b = true <-> a = b.
Proof. unfold str_eqb. apply bool_decide_eq_true. Qed.

Lemma no_LF_app a b : no_LF (a ++ b) = no_LF a && no_LF b.
Proof. apply forallb_app. Qed.

Lemma no_CR_app a b : no_CR (a ++ b) = no_CR a && no_CR b.
Proof. apply forallb_app. Qed.

Lemma join_cons sep x y rest :
  join sep (x :: y :: rest) = x ++ sep ++ join sep (y :: rest).
Proof. reflexivity. Qed.

Lemma forallb_join (p : ascii -> bool) sep xs :
  forallb p sep = true -> forallb (forallb p) xs = true ->
  forallb p (join sep xs) = true.
Proof.
  intros Hsep. induction xs as [|x xs IH]; auto.
  cbn [forallb]. intros [Hx Hxs]%andb_prop.
  destruct xs as [|y xs]; auto.
  rewrite join_cons, !forallb_app, Hx, Hsep. apply IH, Hxs.
Qed.

Lemma fits_one_line_inv server :
  fits_one_line server = true ->
  (lower (type server) = py "server" \/ lower (type server) = py "pool")
  /\ no_line_break (hostname server) = true
  /\ forallb no_line_break (options server) = true.
Proof.
  unfold fits_one_line. rewrite !andb_true_iff, orb_true_iff, !str_eqb_eq.
  intros [[[-> | ->] Hhost] Hopts]; auto.
Qed.

Lemma server_line_text server :
  server_line server
  = lower (type server) ++ [SP]
    ++ join [SP] (hostname server :: options server) ++ [LF].
Proof. unfold server_line. cbn [app]. now rewrite join_cons, <- !app_assoc. Qed.

Lemma fields_no_break (p : ascii -> bool) server :
  (forall s, no_line_break s = true -> forallb p s = true) ->
  p SP = true ->
  (forallb p (py "server") = true) -> (forallb p (py "pool") = true) ->
  fits_one_line server = true ->
  forallb p (lower (type server) ++ [SP]
             ++ join [SP] (hostname server :: options server)) = true.
Proof.
  intros Hp Hsp Hserver Hpool (Hty & Hhost & Hopts)%fits_one_line_inv.
  rewrite !forallb_app. cbn [forallb]. rewrite Hsp.
  assert (Hjoin : forallb p (join [SP] (hostname server :: options server))
                  = true).
  { apply forallb_join; [cbn; now rewrite Hsp|].
    cbn [forallb]. rewrite (Hp _ Hhost). cbn [andb].
    apply forallb_forall. intros o Ho. apply Hp.
    rewrite forallb_forall in Hopts. auto. }
  rewrite Hjoin. destruct Hty as [-> | ->]; now rewrite ?Hserver, ?Hpool.
Qed.

Lemma server_line_complete server :
  fits_one_line server = true ->
  exists body, server_line server = body ++ [LF] /\ no_LF body = true.
Proof.
  intros Hfits.
  exists (lower (type server) ++ [SP]
          ++ join [SP] (hostname server :: options server)).
  split; [rewrite server_line_text; now rewrite <- !app_assoc|].
  apply fields_no_break; auto.
  unfold no_line_break. now intros s [Hs _]%andb_prop.
Qed.

Lemma server_line_no_CR server :
  fits_one_line server = true -> no_CR (server_line server) = true.
Proof.
  intros Hfits. rewrite server_line_text.
  replace (lower (type server) ++ [SP]
           ++ join [SP] (hostname server :: options server) ++ [LF])
    with ((lower (type server) ++ [SP]
           ++ join [SP] (hostname server :: options server)) ++ [LF])
    by now rewrite <- !app_assoc.
  rewrite no_CR_app. apply andb_true_intro. split; [|reflexivity].
  apply fields_no_break; auto.
  unfold no_line_break. now intros s [_ Hs]%andb_prop.
Qed.

Lemma server_line_first server :
  fits_one_line server = true ->
  exists rest, server_line server = "s"%char :: rest
               \/ server_line server = "p"%char :: rest.
Proof.
  intros (Hty & _)%fits_one_line_inv. rewrite server_line_text.
  destruct Hty as [-> | ->]; eexists; [left|right]; reflexivity.
Qed.

Lemma server_line_not_heading server :
  fits_one_line server = true -> is_heading (server_line server) = false.
Proof.
  intros [rest [Hl | Hl]]%server_line_first; rewrite Hl;
    apply bool_decide_eq_false; discriminate.
Qed.

Lemma server_line_not_blank server :
  fits_one_line server = true -> is_blank (server_line server) = false.
Proof.
  intros [rest [Hl | Hl]]%server_line_first; rewrite Hl;
    apply bool_decide_eq_false; discriminate.
Qed.

Lemma filter_none {A} (p : A -> bool) (l : list A) :
  (forall x, In x l -> p x = false) -> List.filter p l = [].
Proof.
  induction l as [|x l IH]; auto. intros Hall. cbn [List.filter].
  rewrite (Hall x) by now left. apply IH. intros y Hy. apply Hall. now right.
Qed.

Lemma leading_block_stops ls rest :
  (forall l, In l ls -> is_blank l = false) ->
  leading_block (ls ++ blank :: rest) = ls.
Proof.
  induction ls as [|l ls IH]; intros Hall; auto. cbn [app leading_block].
  rewrite (Hall l) by now left. f_equal. apply IH.
  intros l' Hl'. apply Hall. now right.
Qed.

Section OneLinePerServer.
Variable servers : list TimeSourceData.
Hypothesis Hfits : forallb fits_one_line servers = true.

Lemma fits_each server : In server servers -> fits_one_line server = true.
Proof. rewrite forallb_forall in Hfits. auto. Qed.

Lemma server_lines_complete :
  Forall (fun l => exists body, l = body ++ [LF] /\ no_LF body = true)
    (heading :: map server_line servers).
Proof.
  constructor.
  - exists (py "# These servers were defined in the installation:").
    split; reflexivity.
  - apply List.Forall_forall. intros l (server & <- & Hin)%in_map_iff.
    apply server_line_complete, fits_each, Hin.
Qed.

Lemma directive_block_no_CR : no_CR (directive_block servers) = true.
Proof.
  unfold directive_block. rewrite no_CR_app. apply andb_true_intro.
  split; [reflexivity|]. unfold no_CR. rewrite forallb_concat.
  apply forallb_forall. intros l (server & <- & Hin)%in_map_iff.
  apply server_line_no_CR, fits_each, Hin.
Qed.

Lemma no_heading_among_servers :
  List.filter is_heading (map server_line servers) = [].
Proof.
  apply filter_none. intros l (server & <- & Hin)%in_map_iff.
  apply server_line_not_heading, fits_each, Hin.
Qed.

Lemma no_blank_among_servers :
  List.filter is_blank (map server_line servers) = [].
Proof.
  apply filter_none. intros l (server & <- & Hin)%in_map_iff.
  apply server_line_not_blank, fits_each, Hin.
Qed.

Lemma leading_block_servers rest :
  leading_block (map server_line servers ++ blank :: rest)
  = map server_line servers.
Proof.
  apply leading_block_stops. intros l (server & <- & Hin)%in_map_iff.
  apply server_line_not_blank, fits_each, Hin.
Qed.

(** The lines a rewrite writes, read again as a file. *)
Lemma file_lines_save old_conf :
  file_lines (save_servers_to_config servers old_conf)
  = heading :: map server_line servers ++ [blank]
    ++ passthrough_lines old_conf.
Proof.
  unfold file_lines. rewrite universal_newlines_id.
  - rewrite readlines_save. f_equal.
    change (directive_block servers)
      with (concat (heading :: map server_line servers)).
    rewrite readlines_concat; auto.
    rewrite <- (app_nil_r (heading :: _)).
    apply lines_ok_app; [apply server_lines_complete|constructor].
  - rewrite save_servers_text, !no_CR_app, directive_block_no_CR.
    now rewrite passthrough_lines_no_CR.
Qed.

End OneLinePerServer.

Lemma passthrough_not_heading old_conf :
  List.filter is_heading (passthrough_lines old_conf) = [].
Proof.
  apply filter_none. intros l [_ Hl]%filter_In.
  unfold is_passthrough in Hl. apply andb_prop in Hl as [_ Hl].
  now apply negb_true_iff in Hl.
Qed.

Lemma count_lines_app p l1 l2 :
  count_lines p (l1 ++ l2) = (count_lines p l1 + count_lines p l2)%nat.
Proof. unfold count_lines. now rewrite List.filter_app, length_app. Qed.

(** C4: for servers that fit on one line each, a rewrite of the result of a
    rewrite starts with the same directive block, byte for byte: the
    heading and one line for each server, up to the first blank line; and
    the heading occurs exactly once among the lines of the second result,
    as it does in the first. *)
Theorem rewrite_idempotent servers old_conf :
  forallb fits_one_line servers = true ->
  let first := save_servers_to_config servers old_conf in
  let second := save_servers_to_config servers first in
  leading_block (file_lines first) = heading :: map server_line servers
  /\ leading_block (file_lines second) = leading_block (file_lines first)
  /\ first = directive_block servers ++ blank
             ++ concat (passthrough_lines old_conf)
  /\ second = directive_block servers ++ blank
              ++ concat (passthrough_lines first)
  /\ count_lines is_heading (file_lines first) = 1%nat
  /\ count_lines is_heading (file_lines second) = 1%nat.
Proof.
  intros Hfits first second.
  assert (Hblock : forall conf,
    leading_block (file_lines (save_servers_to_config servers conf))
    = heading :: map server_line servers).
  { intros conf. rewrite (file_lines_save servers Hfits).
    change (leading_block (heading :: ?ls))
      with (heading :: leading_block ls).
    f_equal. now apply leading_block_servers. }
  assert (Hcount : forall conf,
    count_lines is_heading (file_lines (save_servers_to_config servers conf))
    = 1%nat).
  { intros conf. rewrite (file_lines_save servers Hfits).
    change (heading :: ?ls) with ([heading] ++ ls).
    rewrite !count_lines_app. unfold count_lines at 2 4.
    rewrite (no_heading_among_servers servers Hfits).
    now rewrite passthrough_not_heading. }
  subst first second. rewrite !Hblock, !Hcount.
  repeat split; apply save_servers_text.
Qed.

(** The configuration of the example, rewritten twice. *)
Lemma rewrite_idempotent_example :
  forallb fits_one_line example_servers = true
  /\ leading_block
       (file_lines (save_servers_to_config example_servers example_conf))
     = heading :: map server_line example_servers
  /\ count_lines is_heading
       (file_lines
          (save_servers_to_config example_servers
             (save_servers_to_config example_servers example_conf)))
     = 1%nat.
Proof.
  split; [reflexivity|].
  destruct (rewrite_idempotent example_servers example_conf eq_refl)
    as (Hblock & _ & _ & _ & _ & Hcount).
  split; [exact Hblock|exact Hcount].
Defined.

Lemma filter_filter {A} (p : A -> bool) (l : list A) :
  List.filter p (List.filter p l) = List.filter p l.
Proof.
  induction l as [|x l IH]; auto. cbn [List.filter].
  destruct (p x) eqn:E; auto. cbn [List.filter]. now rewrite E, IH.
Qed.

Lemma count_blank_carried_over servers n :
  forallb fits_one_line servers = true ->
  count_lines is_blank (carried_over n servers) = n.
Proof.
  intros Hfits. induction n as [|n IH]; auto. cbn [carried_over].
  rewrite !count_lines_app, IH.
  replace (count_lines is_blank
             (List.filter is_passthrough (map server_line servers)))
    with 0%nat; auto.
  symmetry. unfold count_lines.
  rewrite filter_none; auto.
  intros l [(server & <- & Hin)%in_map_iff _]%filter_In.
  apply server_line_not_blank. rewrite forallb_forall in Hfits. auto.
Qed.

Lemma carried_over_directives servers n :
  forallb is_directive (map server_line servers) = true ->
  carried_over n servers = repeat blank n.
Proof.
  intros Hdir. induction n as [|n IH]; auto. cbn [carried_over repeat].
  rewrite IH, filter_none; auto.
  intros l Hl. rewrite forallb_forall in Hdir. unfold is_passthrough.
  now rewrite (Hdir l Hl).
Qed.

Lemma passthrough_rewrite_times servers old_conf n :
  forallb fits_one_line servers = true ->
  passthrough_lines (rewrite_times n servers old_conf)
  = carried_over n servers ++ passthrough_lines old_conf.
Proof.
  intros Hfits. induction n as [|n IH]; auto.
  cbn [rewrite_times carried_over]. unfold passthrough_lines at 1.
  rewrite (file_lines_save servers Hfits).
  change (heading :: ?ls) with ([heading] ++ ls).
  rewrite !List.filter_app.
  change (List.filter is_passthrough (passthrough_lines ?c))
    with (List.filter is_passthrough
            (List.filter is_passthrough (file_lines c))).
  rewrite filter_filter. fold (passthrough_lines (rewrite_times n servers old_conf)).
  rewrite IH. now rewrite <- !app_assoc.
Qed.

Lemma file_lines_rewrite_times servers old_conf n :
  forallb fits_one_line servers = true ->
  file_lines (rewrite_times (S n) servers old_conf)
  = heading :: map server_line servers
    ++ (blank :: carried_over n servers) ++ passthrough_lines old_conf.
Proof.
  intros Hfits. cbn [rewrite_times].
  rewrite (file_lines_save servers Hfits).
  now rewrite (passthrough_rewrite_times servers old_conf n Hfits).
Qed.

(** C10: a blank line is copied by every rewrite, and every rewrite writes
    one more. For servers that fit on one line each and a configuration
    that has no blank line, n rewrites in a row leave n blank lines, all of
    them after the directive block and before the lines kept from the
    first configuration (and nothing else is there when the lines of the
    servers are directives); from one rewrite to the next the text gets
    longer. *)
Theorem blank_lines_pile_up servers old_conf n :
  forallb fits_one_line servers = true ->
  count_lines is_blank (file_lines old_conf) = 0%nat ->
  is_passthrough blank = true
  /\ count_lines is_blank (file_lines (rewrite_times n servers old_conf)) = n
  /\ (exists between,
        file_lines (rewrite_times (S n) servers old_conf)
        = heading :: map server_line servers ++ between
          ++ passthrough_lines old_conf
        /\ count_lines is_blank between = S n
        /\ count_lines is_blank (passthrough_lines old_conf) = 0%nat
        /\ (forallb is_directive (map server_line servers) = true ->
            between = repeat blank (S n)))
  /\ (length (rewrite_times (S n) servers old_conf)
      < length (rewrite_times (S (S n)) servers old_conf))%nat.
Proof.
  intros Hfits Hnone.
  assert (Hkept : count_lines is_blank (passthrough_lines old_conf) = 0%nat).
  { unfold count_lines in *. apply length_zero_iff_nil in Hnone.
    apply length_zero_iff_nil. apply filter_none.
    intros l [Hl _]%filter_In.
    destruct (is_blank l) eqn:E; auto.
    assert (Hin : In l (List.filter is_blank (file_lines old_conf)))
      by (apply filter_In; auto).
    rewrite Hnone in Hin. destruct Hin. }
  assert (Hcount : forall m,
    count_lines is_blank (file_lines (rewrite_times (S m) servers old_conf))
    = S m).
  { intros m. rewrite (file_lines_rewrite_times servers old_conf m Hfits).
    change (heading :: ?ls) with ([heading] ++ ls).
    change (blank :: ?ls) with ([blank] ++ ls).
    rewrite !count_lines_app, Hkept.
    rewrite (count_blank_carried_over servers m Hfits).
    unfold count_lines at 2.
    rewrite (no_blank_among_servers servers Hfits).
    change (count_lines is_blank [heading]) with 0%nat.
    change (count_lines is_blank [blank]) with 1%nat.
    cbn [length]. lia. }
  split; [reflexivity|]. split; [destruct n; auto|]. split.
  - exists (blank :: carried_over n servers).
    split; [now apply file_lines_rewrite_times|].
    split; [|split; auto].
    + change (blank :: ?ls) with ([blank] ++ ls).
      rewrite count_lines_app, (count_blank_carried_over servers n Hfits).
      reflexivity.
    + intros Hdir. now rewrite (carried_over_directives servers n Hdir).
  - assert (Hlen : forall m,
      length (rewrite_times (S m) servers old_conf)
      = (length (directive_block servers) + 1
         + length (concat (carried_over m servers))
         + length (concat (passthrough_lines old_conf)))%nat).
    { intros m.
      change (rewrite_times (S m) servers old_conf)
        with (save_servers_to_config servers
                (rewrite_times m servers old_conf)).
      rewrite save_servers_text.
      rewrite (passthrough_rewrite_times servers old_conf m Hfits).
      rewrite concat_app, !length_app. cbn [length]. lia. }
    rewrite !Hlen. cbn [carried_over]. rewrite !concat_app, !length_app.
    change (length (concat [blank])) with 1%nat. lia.
Qed.

(** Two rewrites of the configuration of the example leave two blank
    lines. *)
Lemma blank_lines_example :
  forallb fits_one_line example_servers = true
  /\ count_lines is_blank (file_lines example_conf) = 0%nat
  /\ count_lines is_blank
       (file_lines (rewrite_times 2 example_servers example_conf))
     = 2%nat.
Proof.
  split; [reflexivity|]. split; [reflexivity|].
  destruct (blank_lines_pile_up example_servers example_conf 2
              eq_refl eq_refl) as (_ & Hcount & _).
  exact Hcount.
Defined.

(** ** Reading what was written *)

Lemma lower_alnum_not_space c : is_lower_alnum c = true -> is_space c = false.
Proof. by_cases_on_char c. Qed.

Lemma lower_alnum_no_break c :
  is_lower_alnum c = true ->
  negb (Ascii.eqb c LF) && negb (Ascii.eqb c CR) = true.
Proof. by_cases_on_char c. Qed.

Lemma host_char_no_break c :
  is_host_char c = true ->
  negb (Ascii.eqb c LF) && negb (Ascii.eqb c CR) = true.
Proof. by_cases_on_char c. Qed.

Lemma plain_lower c : is_plain c = true -> lower_char c = c.
Proof. by_cases_on_char c. Qed.

Lemma plain_option_char c : is_plain c = true -> is_option_char c = true.
Proof. by_cases_on_char c. Qed.

Lemma lower_plain s : forallb is_plain s = true -> lower s = s.
Proof.
  induction s as [|c s IH]; auto. cbn [forallb lower map].
  intros [Hc Hs]%andb_prop. rewrite (plain_lower c Hc). f_equal.
  apply IH, Hs.
Qed.

Lemma forallb_impl {A} (p q : A -> bool) (l : list A) :
  (forall x, p x = true -> q x = true) ->
  forallb p l = true -> forallb q l = true.
Proof.
  intros Hpq. rewrite !forallb_forall. auto.
Qed.

Lemma is_word_inv w :
  is_word w = true -> w <> [] /\ forallb is_lower_alnum w = true.
Proof. destruct w; [discriminate|]. intros Hw. split; [discriminate|auto]. Qed.

Lemma str_in_In x xs : str_in x xs = true <-> In x xs.
Proof.
  unfold str_in. rewrite existsb_exists. split.
  - intros (y & Hy & ->%str_eqb_eq). exact Hy.
  - intros Hx. exists x. split; auto. now apply str_eqb_eq.
Qed.

Lemma flags_are_words : forallb is_word SRV_NOARG_OPTIONS = true.
Proof. reflexivity. Qed.

Lemma names_are_words :
  forallb (fun k => is_word k && negb (str_in k SRV_NOARG_OPTIONS))
    SRV_ARG_OPTIONS = true.
Proof. reflexivity. Qed.

Lemma wf_option_cases o :
  wf_option o = true ->
  (str_in o SRV_NOARG_OPTIONS = true /\ is_word o = true)
  \/ exists k v,
       o = k ++ SP :: v /\ is_word k = true /\ is_word v = true
       /\ str_in k SRV_NOARG_OPTIONS = false
       /\ str_in k SRV_ARG_OPTIONS = true.
Proof.
  unfold wf_option. intros [Hflag | Harg]%orb_prop.
  - left. split; auto. pose proof flags_are_words as Hw.
    rewrite forallb_forall in Hw. now apply Hw, str_in_In.
  - right. apply existsb_exists in Harg as (k & Hk & Hv).
    destruct (strip_prefix (k ++ [SP]) o) as [v|] eqn:Es; try discriminate.
    apply strip_prefix_app in Es. rewrite <- app_assoc in Es.
    pose proof names_are_words as Hw. rewrite forallb_forall in Hw.
    apply Hw in Hk as Hk'. apply andb_prop in Hk' as [Hword Hnot].
    exists k, v. repeat split; auto.
    + now apply negb_true_iff.
    + now apply str_in_In.
Qed.

Lemma word_plain w : is_word w = true -> forallb is_plain w = true.
Proof.
  intros [_ Hw]%is_word_inv. revert Hw. apply forallb_impl.
  intros c Hc. unfold is_plain. now rewrite Hc.
Qed.

Lemma wf_option_plain o : wf_option o = true -> forallb is_plain o = true.
Proof.
  intros [[_ Hw] | (k & v & -> & Hk & Hv & _)]%wf_option_cases.
  - now apply word_plain.
  - rewrite forallb_app. cbn [forallb].
    now rewrite (word_plain k Hk), (word_plain v Hv).
Qed.

Lemma no_line_break_chars s :
  forallb (fun c => negb (Ascii.eqb c LF) && negb (Ascii.eqb c CR)) s = true ->
  no_line_break s = true.
Proof.
  unfold no_line_break, no_LF, no_CR.
  induction s as [|c s IH]; auto. cbn [forallb].
  intros [[Hlf Hcr]%andb_prop [Hs1 Hs2]%IH%andb_prop]%andb_prop.
  now rewrite Hlf, Hcr, Hs1, Hs2.
Qed.

Lemma word_no_break w :
  is_word w = true ->
  forallb (fun c => negb (Ascii.eqb c LF) && negb (Ascii.eqb c CR)) w = true.
Proof.
  intros [_ Hw]%is_word_inv. revert Hw. apply forallb_impl.
  exact lower_alnum_no_break.
Qed.

Lemma wf_option_no_break o : wf_option o = true -> no_line_break o = true.
Proof.
  intros Ho. apply no_line_break_chars.
  apply wf_option_cases in Ho as [[_ Hw] | (k & v & -> & Hk & Hv & _)].
  - now apply word_no_break.
  - rewrite forallb_app. cbn [forallb].
    now rewrite (word_no_break k Hk), (word_no_break v Hv).
Qed.

Lemma well_formed_inv server :
  well_formed server = true ->
  (type server = TIME_SOURCE_SERVER \/ type server = TIME_SOURCE_POOL)
  /\ hostname server <> []
  /\ forallb is_host_char (hostname server) = true
  /\ forallb wf_option (options server) = true.
Proof.
  unfold well_formed. rewrite !andb_true_iff, orb_true_iff, !str_eqb_eq.
  intros [[[Hty Hne] Hhost] Hopts]. repeat split; auto.
  destruct (hostname server); [discriminate|discriminate].
Qed.

Lemma well_formed_fits server :
  well_formed server = true -> fits_one_line server = true.
Proof.
  intros (Hty & _ & Hhost & Hopts)%well_formed_inv. unfold fits_one_line.
  rewrite !andb_true_iff, orb_true_iff, !str_eqb_eq. repeat split; auto.
  - apply no_line_break_chars. revert Hhost. apply forallb_impl.
    exact host_char_no_break.
  - revert Hopts. apply forallb_impl. exact wf_option_no_break.
Qed.

(** [split] takes a word off the front of a text. *)
Lemma split_space c s : is_space c = true -> split (c :: s) = split s.
Proof. intros Hc. cbn [split]. now rewrite Hc. Qed.

Lemma split_word w rest :
  w <> [] -> forallb is_lower_alnum w = true ->
  (exists c r, rest = c :: r /\ is_space c = true) ->
  split (w ++ rest) = w :: split rest.
Proof.
  intros Hne Hw (c & r & -> & Hc).
  induction w as [|a w IH]; [congruence|]. clear Hne.
  cbn [forallb] in Hw. apply andb_prop in Hw as [Ha Hw].
  pose proof (lower_alnum_not_space a Ha) as Hna.
  destruct w as [|b w].
  - cbn [app split]. now rewrite Hna, Hc.
  - change ((a :: b :: w) ++ c :: r) with (a :: (b :: w) ++ c :: r).
    assert (Hb : is_space b = false).
    { cbn [forallb] in Hw. apply andb_prop in Hw as [Hb _].
      now apply lower_alnum_not_space. }
    change (split (a :: (b :: w) ++ c :: r))
      with (if is_space a then split ((b :: w) ++ c :: r)
            else if is_space b then [a] :: split ((b :: w) ++ c :: r)
                 else match split ((b :: w) ++ c :: r) with
                      | w0 :: ws => (a :: w0) :: ws
                      | [] => [[a]]
                      end).
    rewrite Hna, Hb, IH; auto; discriminate.
Qed.

Lemma region_starts opts :
  exists c r, region_of opts = c :: r /\ is_space c = true.
Proof.
  destruct opts as [|o opts]; unfold region_of; cbn [map concat app].
  - now exists LF, [].
  - eexists SP, _. split; reflexivity.
Qed.

Lemma region_cons o opts : region_of (o :: opts) = SP :: o ++ region_of opts.
Proof. unfold region_of. cbn [map concat app]. now rewrite <- app_assoc. Qed.

Lemma consume_region opts :
  forallb wf_option opts = true ->
  consume_options (split (region_of opts)) = opts.
Proof.
  induction opts as [|o opts IH]; [reflexivity|].
  cbn [forallb]. intros [Ho Hopts]%andb_prop.
  rewrite region_cons, split_space by reflexivity.
  pose proof (region_starts opts) as Hstart.
  destruct (wf_option_cases o Ho)
    as [[Hflag Hw] | (k & v & -> & Hk & Hv & Hnot & Harg)].
  - apply is_word_inv in Hw as [Hne Hw].
    rewrite split_word; auto. cbn [consume_options].
    now rewrite Hflag, IH.
  - apply is_word_inv in Hk as [Hkne Hk]. apply is_word_inv in Hv as [Hvne Hv].
    rewrite <- app_assoc. rewrite split_word; auto.
    2:{ eexists SP, _. split; reflexivity. }
    cbn [app]. rewrite split_space by reflexivity.
    rewrite split_word; auto. cbn [consume_options].
    rewrite Hnot, Harg, IH; auto.
Qed.

Lemma region_plain opts :
  forallb wf_option opts = true -> forallb is_plain (region_of opts) = true.
Proof.
  induction opts as [|o opts IH]; [reflexivity|].
  cbn [forallb]. intros [Ho Hopts]%andb_prop.
  rewrite region_cons. cbn [forallb]. rewrite forallb_app.
  now rewrite (wf_option_plain o Ho), IH.
Qed.

Lemma join_host host opts :
  join [SP] (host :: opts) ++ [LF] = host ++ region_of opts.
Proof.
  revert host. induction opts as [|o opts IH]; intros host.
  - reflexivity.
  - rewrite join_cons, region_cons, <- !app_assoc, IH. reflexivity.
Qed.

Lemma server_line_shape server :
  well_formed server = true ->
  directive_shape (server_line server) [] (lower (type server)) [SP]
    (hostname server) (region_of (options server)).
Proof.
  intros (Hty & Hne & Hhost & Hopts)%well_formed_inv.
  unfold directive_shape. repeat split; auto.
  - rewrite server_line_text, <- join_host. reflexivity.
  - destruct Hty as [-> | ->]; [left|right]; reflexivity.
  - revert Hopts. intros Hopts%region_plain. revert Hopts.
    apply forallb_impl. exact plain_option_char.
Qed.

(** The line of a well-formed server is read back as that server. *)
Lemma parse_server_line server :
  well_formed server = true ->
  parse_line (server_line server) = Some server.
Proof.
  intros Hwf. rewrite parse_line_scan.
  rewrite (scan_directive_shape _ _ _ _ _ _ (server_line_shape server Hwf)).
  apply well_formed_inv in Hwf as (Hty & Hne & Hhost & Hopts).
  destruct (region_starts (options server)) as (c & r & Hregion & Hc).
  pose proof (consume_region _ Hopts) as Hconsume.
  pose proof (region_plain _ Hopts) as Hplain.
  rewrite Hregion in *. cbn [take_while drop_while options_region].
  rewrite (space_not_host c Hc). cbn [options_region]. rewrite Hc.
  rewrite app_nil_r, parse_options_consume.
  cbn [forallb] in Hplain. apply andb_prop in Hplain as [_ Hplain].
  rewrite (lower_plain r Hplain).
  rewrite (split_space c r Hc) in Hconsume. rewrite Hconsume.
  destruct server as [ty host opts]. cbn [type hostname options] in *.
  f_equal. f_equal. destruct Hty as [-> | ->]; reflexivity.
Qed.

Lemma fold_collect lines servers :
  fold_left collect lines servers = servers ++ parse_lines lines.
Proof.
  unfold parse_lines. revert servers.
  induction lines as [|l lines IH]; intros servers; cbn [fold_left].
  - now rewrite app_nil_r.
  - rewrite IH, (IH (collect [] l)). unfold collect.
    destruct (parse_line l); cbn [app]; auto. now rewrite <- app_assoc.
Qed.

Lemma parse_lines_app l1 l2 :
  parse_lines (l1 ++ l2) = parse_lines l1 ++ parse_lines l2.
Proof.
  unfold parse_lines at 1. rewrite fold_left_app.
  fold (parse_lines l1). apply fold_collect.
Qed.

Lemma parse_lines_cons l lines :
  parse_lines (l :: lines)
  = match parse_line l with Some s => [s] | None => [] end
    ++ parse_lines lines.
Proof.
  change (l :: lines) with ([l] ++ lines). rewrite parse_lines_app.
  reflexivity.
Qed.

Lemma parse_server_lines servers :
  forallb well_formed servers = true ->
  parse_lines (map server_line servers) = servers.
Proof.
  induction servers as [|server servers IH]; [reflexivity|].
  cbn [forallb map]. intros [Hs Hrest]%andb_prop.
  now rewrite parse_lines_cons, (parse_server_line server Hs), IH.
Qed.

Lemma parse_passthrough old_conf :
  parse_lines (passthrough_lines old_conf) = [].
Proof.
  unfold passthrough_lines.
  induction (file_lines old_conf) as [|l lines IH]; [reflexivity|].
  cbn [List.filter]. destruct (is_passthrough l) eqn:E; auto.
  rewrite parse_lines_cons, IH.
  unfold is_passthrough in E. apply andb_prop in E as [E _].
  apply negb_true_iff in E. unfold is_directive in E. unfold parse_line.
  now destruct (re_match SRV_LINE_REGEXP l).
Qed.

(** C1: well-formed servers written over any old configuration, so also
    over an empty one or one that has no directive, are read back as they
    were: the same servers in the same order, each with its type, its host
    name and its options. *)
Theorem round_trip (fs : filesystem) path servers old_conf :
  forallb well_formed servers = true ->
  fs path = Opened {| contents := save_servers_to_config servers old_conf;
                      read_error := None |} ->
  get_servers_from_config fs path = inr servers.
Proof.
  intros Hwf Hfile. unfold get_servers_from_config. rewrite Hfile.
  cbn [contents read_error]. f_equal.
  rewrite file_lines_save.
  - rewrite parse_lines_cons, !parse_lines_app.
    rewrite (parse_server_lines servers Hwf), parse_passthrough.
    change (parse_line heading) with (@None TimeSourceData).
    change (parse_lines [blank]) with (@nil TimeSourceData).
    cbn [app]. now rewrite app_nil_r.
  - revert Hwf. apply forallb_impl. exact well_formed_fits.
Qed.

(** The servers of the example, written over the configuration of the
    example and read back. *)
Lemma round_trip_example :
  forallb well_formed example_servers = true
  /\ get_servers_from_config
       (fun _ => Opened {| contents :=
                             save_servers_to_config example_servers example_conf;
                           read_error := None |})
       NTP_CONFIG_FILE
     = inr example_servers.
Proof.
  split; [reflexivity|].
  apply (round_trip _ NTP_CONFIG_FILE example_servers example_conf);
    reflexivity.
Defined.

(** ** Errors of reading *)

Lemma parse_lines_step l lines :
  parse_lines (l :: lines)
  = match parse_line l with
    | Some server => server :: parse_lines lines
    | None => parse_lines lines
    end.
Proof. rewrite parse_lines_cons. now destruct (parse_line l). Qed.


(** ** One-time synchronisation *)

Lemma int_truncates x :
  (0 <= x)%Q -> (inject_Z (int x) <= x)%Q /\ (x < inject_Z (int x + 1))%Q.
Proof.
  destruct x as [n d]. unfold Qle, Qlt, int, inject_Z. cbn [Qnum Qden].
  rewrite !Z.mul_1_r. intros Hn.
  rewrite Z.quot_div_nonneg by lia.
  pose proof (Z.mul_div_le n (Z.pos d) ltac:(lia)).
  pose proof (Z.mul_succ_div_gt n (Z.pos d) ltac:(lia)).
  split; lia.
Qed.

(** C5, as the code has it: the synchronisation asks the server once,
    before anything else. When the server answers and the clock takes the
    time, the clock is set to the whole seconds of the answer and the
    result is true; when the request raises the error of the protocol or
    of the name resolution, the clock is not touched and the result is
    false. Whenever there is a result and a callback, the callback is
    called once, with the result and after everything else. *)
Theorem one_time_sync_outcomes (w : World) server callback st :
  let host := hostname server in
  let run := _one_time_sync w server callback st in
  (exists later,
     trace (snd run) = trace st ++ Request host :: later
     /\ count_events is_request later = 0%nat)
  /\ (forall tx_time,
        ntp_reply w host = inr tx_time ->
        clock_failure w (int tx_time) = None ->
        run = (inr true,
               with_events st ([Request host; SetSystemTime (int tx_time)]
                               ++ called callback true)))
  /\ (ntp_reply w host = inl NTPException \/ ntp_reply w host = inl gaierror ->
      run = (inr false, with_events st ([Request host] ++ called callback false))
      /\ count_events is_set_system_time ([Request host] ++ called callback false)
         = 0%nat)
  /\ (forall success,
        fst run = inr success ->
        exists before,
          trace (snd run) = trace st ++ before ++ called callback success
          /\ count_events is_callback before = 0%nat)
  /\ (forall x, (0 <= x)%Q ->
        (inject_Z (int x) <= x)%Q /\ (x < inject_Z (int x + 1))%Q).
Proof.
  intros host run. subst host run.
  split; [|split; [|split; [|split]]].
  - run_effects.
    destruct (ntp_reply w (hostname server)) as [[]|tx]; cbn;
      try destruct (clock_failure w (int tx)) as [[]|]; cbn;
      destruct callback; cbn; rewrite <- ?app_assoc; cbn;
      eexists; split; reflexivity.
  - intros tx Hreply Hclock. run_effects. rewrite Hreply. cbn.
    rewrite Hclock. cbn. destruct callback; cbn;
      rewrite <- ?app_assoc; reflexivity.
  - intros [Hreply | Hreply]; run_effects; rewrite Hreply; cbn;
      destruct callback; cbn; rewrite <- ?app_assoc; split; reflexivity.
  - intros success. run_effects.
    destruct (ntp_reply w (hostname server)) as [[]|tx]; cbn;
      try destruct (clock_failure w (int tx)) as [[]|]; cbn;
      destruct callback; cbn; intros [= <-]; rewrite <- ?app_assoc; cbn;
      try (eexists [_]; split; reflexivity);
      try (eexists [_; _]; split; reflexivity).
  - exact int_truncates.
Qed.

(** C5, as the claim states it, fails: when the clock refuses the time,
    its error leaves the synchronisation, which gives no result and does
    not call the callback it was given; the same happens when the request
    raises an error that is neither of the two the function names. *)
Lemma callback_not_called :
  _one_time_sync refusing_clock_world example_server (Some 0%nat)
    initial_system
  = (inl OtherException,
     with_events initial_system
       [Request (hostname example_server); SetSystemTime 3])
  /\ _one_time_sync
       {| ntp_reply := fun _ => inl socket_error;
          connection := fun _ _ => None;
          clock_failure := fun _ => None |}
       example_server (Some 0%nat) initial_system
     = (inl socket_error,
        with_events initial_system [Request (hostname example_server)])
  /\ ~ (forall w server cb st,
          exists before success,
            trace (snd (_one_time_sync w server (Some cb) st))
            = trace st ++ before ++ [Callback cb success]).
Proof.
  split; [reflexivity|]. split; [reflexivity|].
  intros Hall.
  destruct (Hall refusing_clock_world example_server 0%nat initial_system)
    as (before & success & Htrace).
  cbn in Htrace.
  destruct before as [|e1 [|e2 [|e3 before]]]; cbn in Htrace;
    discriminate.
Qed.

(** ** The cache of server states *)

Section Cache.
Context `{Constants}.

Lemma ntp_server_working_cache w host nts st :
  _cache (snd (ntp_server_working w host nts st)) = _cache st
  /\ threads (snd (ntp_server_working w host nts st)) = threads st.
Proof.
  run_effects. destruct nts; cbn.
  - destruct (connection w host 4460) as [[]|]; cbn; auto.
  - destruct (ntp_reply w host) as [[]|tx]; cbn; auto.
Qed.

Lemma one_time_sync_cache w server callback st :
  _cache (snd (_one_time_sync w server callback st)) = _cache st
  /\ threads (snd (_one_time_sync w server callback st)) = threads st.
Proof.
  run_effects.
  destruct (ntp_reply w (hostname server)) as [[]|tx]; cbn;
    try destruct (clock_failure w (int tx)) as [[]|]; cbn;
    destruct callback; cbn; auto.
Qed.

Lemma check_status_run server st :
  check_status server st
  = (inr tt,
     {| _cache := <[hostname server := NTP_SERVER_QUERY]> (_cache st);
        threads :=
          <[next_check_name st :=
              ServerCheckThread (hostname server)
                (str_in (py "nts") (options server))]> (threads st);
        thread_counter := S (thread_counter st);
        trace := trace st |}).
Proof. reflexivity. Qed.

Lemma check_thread_cache w host nts st :
  _cache (snd (_check_status w host nts st))
  = match fst (ntp_server_working w host nts st) with
    | inr true => <[host := NTP_SERVER_OK]> (_cache st)
    | inr false => <[host := NTP_SERVER_NOK]> (_cache st)
    | inl _ => _cache st
    end.
Proof.
  destruct (ntp_server_working_cache w host nts st) as [Hcache _].
  unfold _check_status, bind.
  destruct (ntp_server_working w host nts st) as [[e|[]] st'];
    cbn [fst snd] in *; unfold _set_status; cbn [snd _cache]; congruence.
Qed.

Lemma sync_async_run server callback st :
  one_time_sync_async server callback st
  = (inr tt,
     match threads st !! sync_thread_name server with
     | Some _ => st
     | None =>
         {| _cache := _cache st;
            threads := <[sync_thread_name server :=
                           SyncTimeThread server callback]> (threads st);
            thread_counter := thread_counter st;
            trace := trace st |}
     end).
Proof.
  unfold one_time_sync_async, bind, threadMgr_get.
  now destruct (threads st !! sync_thread_name server).
Qed.

Lemma run_thread_cache w name t st :
  _cache (snd (run_thread w name t st))
  = _cache (snd (thread_body w t st)).
Proof.
  unfold run_thread, bind, try_except, threadMgr_remove, ret.
  now destruct (thread_body w t st) as [[e|[]] st'].
Qed.

(** Every change of the cache is one of the three writes. *)
Lemma step_cache st st' :
  step st st' ->
  _cache st' = _cache st
  \/ (exists server,
        st' = snd (check_status server st)
        /\ _cache st' = <[hostname server := NTP_SERVER_QUERY]> (_cache st))
  \/ (exists w name host nts,
        threads st !! name = Some (ServerCheckThread host nts)
        /\ st' = snd (run_thread w name (ServerCheckThread host nts) st)
        /\ ((fst (ntp_server_working w host nts st) = inr true
             /\ _cache st' = <[host := NTP_SERVER_OK]> (_cache st))
            \/ (fst (ntp_server_working w host nts st) = inr false
                /\ _cache st' = <[host := NTP_SERVER_NOK]> (_cache st)))).
Proof.
  intros [st0 server|st0 server callback|st0 w name t Hrun].
  - right. left. exists server. now rewrite check_status_run.
  - left. rewrite sync_async_run. cbn [snd].
    now destruct (threads st0 !! sync_thread_name server).
  - rewrite run_thread_cache. destruct t as [server callback|host nts].
    + left. cbn [thread_body]. unfold bind, ret.
      pose proof (one_time_sync_cache w server callback st0) as [Hc _].
      now destruct (_one_time_sync w server callback st0) as [[e|b] st1].
    + cbn [thread_body]. rewrite check_thread_cache.
      destruct (fst (ntp_server_working w host nts st0)) as [e|[]] eqn:E;
        auto; right; right; exists w, name, host, nts;
        (split; [exact Hrun|split; [reflexivity|]]); [left|right];
        (split; [exact E|reflexivity]).
Qed.

Lemma reachable_valid st :
  reachable st ->
  forall host status, _cache st !! host = Some status -> valid_status status.
Proof.
  induction 1 as [|st st' Hreach IH Hstep]; intros host status.
  - cbn [initial_system _cache]. now rewrite lookup_empty.
  - destruct (step_cache st st' Hstep)
      as [-> | [(server & _ & ->) | (w & name & h & nts & _ & _ & Hset)]].
    + apply IH.
    + rewrite lookup_insert. case_decide; [|apply IH].
      intros [= <-]. now left.
    + destruct Hset as [[_ ->] | [_ ->]]; rewrite lookup_insert;
        (case_decide; [|apply IH]); intros [= <-]; unfold valid_status; auto.
Qed.


End Cache.

(** ** Synchronisation in a thread *)

Section SyncThread.
Context `{Constants}.

Lemma sync_thread_name_inj s1 s2 :
  sync_thread_name s1 = sync_thread_name s2 <-> hostname s1 = hostname s2.
Proof.
  unfold sync_thread_name. split; [|now intros ->].
  intros Hname. apply app_inv_head in Hname. now apply app_inv_head in Hname.
Qed.

Lemma run_sync_thread w name server callback st :
  threads (snd (run_thread w name (SyncTimeThread server callback) st))
  = delete name (threads st)
  /\ trace (snd (run_thread w name (SyncTimeThread server callback) st))
     = trace (snd (_one_time_sync w server callback st)).
Proof.
  destruct (one_time_sync_cache w server callback st) as [_ Hthreads].
  unfold run_thread, thread_body, bind, try_except, threadMgr_remove, ret.
  destruct (_one_time_sync w server callback st) as [[e|b] st'];
    cbn [fst snd threads trace] in *; now rewrite Hthreads.
Qed.

Lemma one_time_sync_events w server callback st :
  exists events,
    trace (snd (_one_time_sync w server callback st)) = trace st ++ events
    /\ count_events is_request events = 1%nat
    /\ count_events is_set_system_time events
       = match ntp_reply w (hostname server) with
         | inr _ => 1%nat
         | inl _ => 0%nat
         end.
Proof.
  run_effects.
  destruct (ntp_reply w (hostname server)) as [[]|tx]; cbn;
    try destruct (clock_failure w (int tx)) as [[]|]; cbn;
    destruct callback; cbn; rewrite <- ?app_assoc; cbn;
    eexists; repeat split; reflexivity.
Qed.

(** C7, as the code has it: the name of the thread is the fixed prefix, an
    underscore and the host name, so it is the same for the same host and no other. A request
    for a host whose thread is registered changes nothing and starts
    nothing; it returns as the other does. So of two requests for one
    host, the second made while the thread of the first is registered, one
    thread runs: it asks the server once and, when the server answers, it
    sets the clock once; when the server does not answer, the clock is not
    set. *)
Theorem sync_async_dedup :
  (forall server,
     sync_thread_name server
     = THREAD_SYNC_TIME_BASENAME ++ py "_" ++ hostname server)
  /\ (forall s1 s2,
        sync_thread_name s1 = sync_thread_name s2
        <-> hostname s1 = hostname s2)
  /\ (forall server callback st running,
        threads st !! sync_thread_name server = Some running ->
        one_time_sync_async server callback st = (inr tt, st))
  /\ (forall server callback st,
        threads st !! sync_thread_name server = None ->
        one_time_sync_async server callback st
        = (inr tt,
           {| _cache := _cache st;
              threads := <[sync_thread_name server :=
                             SyncTimeThread server callback]> (threads st);
              thread_counter := thread_counter st;
              trace := trace st |}))
  /\ (forall w s1 cb1 s2 cb2 st,
        hostname s1 = hostname s2 ->
        threads st !! sync_thread_name s1 = None ->
        let name := sync_thread_name s1 in
        let st1 := snd (one_time_sync_async s1 cb1 st) in
        let st2 := snd (one_time_sync_async s2 cb2 st1) in
        let finished := snd (run_thread w name (SyncTimeThread s1 cb1) st2) in
        st2 = st1
        /\ threads st2 = <[name := SyncTimeThread s1 cb1]> (threads st)
        /\ threads finished = threads st
        /\ exists events,
             trace finished = trace st ++ events
             /\ count_events is_request events = 1%nat
             /\ count_events is_set_system_time events
                = match ntp_reply w (hostname s1) with
                  | inr _ => 1%nat
                  | inl _ => 0%nat
                  end).
Proof.
  split; [reflexivity|]. split; [exact sync_thread_name_inj|].
  split; [|split].
  - intros server callback st running Hrunning.
    now rewrite sync_async_run, Hrunning.
  - intros server callback st Hfree. now rewrite sync_async_run, Hfree.
  - intros w s1 cb1 s2 cb2 st Hhost Hfree name st1 st2 finished.
    assert (Hname : sync_thread_name s2 = name)
      by now apply sync_thread_name_inj.
    assert (Hst1 : st1 = {| _cache := _cache st;
                            threads := <[name := SyncTimeThread s1 cb1]>
                                         (threads st);
                            thread_counter := thread_counter st;
                            trace := trace st |}).
    { subst st1 name. now rewrite sync_async_run, Hfree. }
    assert (Hst2 : st2 = st1).
    { subst st2. rewrite sync_async_run, Hname, Hst1. cbn [threads snd].
      now rewrite lookup_insert_eq. }
    split; [exact Hst2|]. split; [now rewrite Hst2, Hst1|].
    subst finished.
    destruct (run_sync_thread w name s1 cb1 st2) as [-> ->].
    rewrite Hst2, Hst1. cbn [threads]. split.
    + rewrite delete_insert_eq. now apply delete_id.
    + apply (one_time_sync_events w s1 cb1
               {| _cache := _cache st;
                  threads := <[name := SyncTimeThread s1 cb1]> (threads st);
                  thread_counter := thread_counter st;
                  trace := trace st |}).
Qed.

End SyncThread.

(** C7, as the claim states it, fails: when the server does not answer,
    two requests for it, the second made while the thread of the first is
    registered, end without any setting of the clock. *)
Lemma no_answer_no_clock_set :
  let K := anaconda_constants in
  let st1 := snd (@one_time_sync_async K example_server None initial_system) in
  let st2 := snd (@one_time_sync_async K example_server (Some 0%nat) st1) in
  let name := @sync_thread_name K example_server in
  let finished :=
    snd (run_thread silent_world name (SyncTimeThread example_server None)
           st2) in
  name = py "AnaSyncTime_ntp.example.com"
  /\ st2 = st1
  /\ trace finished = [Request (hostname example_server)]
  /\ count_events is_set_system_time (trace finished) = 0%nat
  /\ ~ (forall w server cb1 cb2 st,
          threads st !! @sync_thread_name K server = None ->
          count_events is_set_system_time
            (trace
               (snd (run_thread w (@sync_thread_name K server)
                       (SyncTimeThread server cb1)
                       (snd (@one_time_sync_async K server cb2
                               (snd (@one_time_sync_async K server cb1
                                       st)))))))
          = S (count_events is_set_system_time (trace st))).
Proof.
  repeat split; try reflexivity.
  intros Hall.
  specialize (Hall silent_world example_server None (Some 0%nat)
                initial_system eq_refl).
  discriminate Hall.
Qed.

(** * Further properties of the code *)

(** ** What the parser returns *)

Lemma option_char_lower_plain c :
  is_option_char c = true -> is_plain (lower_char c) = true.
Proof. by_cases_on_char c. Qed.

Lemma plain_not_space_word c :
  is_plain c = true -> is_space c = false -> is_lower_alnum c = true.
Proof. by_cases_on_char c. Qed.

Lemma lower_region_plain s :
  forallb is_option_char s = true -> forallb is_plain (lower s) = true.
Proof.
  induction s as [|c s IH]; auto. cbn [forallb lower map].
  intros [Hc Hs]%andb_prop. rewrite (option_char_lower_plain c Hc). now apply IH.
Qed.

Lemma options_region_chars (p : ascii -> bool) s :
  forallb p s = true -> forallb p (options_region s) = true.
Proof.
  destruct s as [|c s]; auto. cbn [options_region forallb].
  intros [Hc Hs]%andb_prop. destruct (is_space c); auto.
  cbn [forallb]. now rewrite Hc, Hs.
Qed.

Lemma is_word_cons c w :
  is_lower_alnum c = true -> forallb is_lower_alnum w = true ->
  is_word (c :: w) = true.
Proof. intros Hc Hw. cbn [is_word forallb]. now rewrite Hc, Hw. Qed.

(** The words of a text of lower-case letters, digits and whitespace. *)
Lemma split_words_plain s :
  forallb is_plain s = true -> forallb is_word (split s) = true.
Proof.
  induction s as [|c s IH]; auto. cbn [forallb].
  intros [Hc Hs]%andb_prop. specialize (IH Hs). cbn [split].
  destruct (is_space c) eqn:Ec; auto.
  pose proof (plain_not_space_word c Hc Ec) as Hword.
  destruct s as [|d s]; [cbn; now rewrite Hword|].
  destruct (is_space d); [cbn [forallb]; rewrite IH;
                          cbn; now rewrite Hword|].
  destruct (split (d :: s)) as [|w ws]; [cbn; now rewrite Hword|].
  cbn [forallb] in *. apply andb_prop in IH as [Hw Hws].
  apply is_word_inv in Hw as [_ Hw].
  now rewrite (is_word_cons c w Hword Hw), Hws.
Qed.

Lemma wf_option_with_argument k v :
  str_in k SRV_ARG_OPTIONS = true -> is_word v = true ->
  wf_option (k ++ [SP] ++ v) = true.
Proof.
  intros Hk Hv. unfold wf_option. apply orb_true_iff. right.
  apply existsb_exists. exists k. split; [now apply str_in_In|].
  rewrite app_assoc, strip_prefix_here. exact Hv.
Qed.

Lemma consume_options_wf words :
  forallb is_word words = true ->
  forallb wf_option (consume_options words) = true.
Proof.
  assert (H : forall n words, (length words <= n)%nat ->
    forallb is_word words = true ->
    forallb wf_option (consume_options words) = true).
  { clear words. induction n as [|n IH]; intros [|w rest] Hlen Hwords;
      auto; cbn [length] in Hlen; try lia.
    cbn [forallb] in Hwords. apply andb_prop in Hwords as [Hw Hrest].
    cbn [consume_options].
    destruct (str_in w SRV_NOARG_OPTIONS) eqn:Eflag.
    - cbn [forallb]. unfold wf_option at 1. rewrite Eflag.
      apply IH; auto. lia.
    - destruct (str_in w SRV_ARG_OPTIONS) eqn:Earg; [|apply IH; auto; lia].
      destruct rest as [|arg rest]; auto.
      cbn [forallb] in Hrest. apply andb_prop in Hrest as [Harg Hrest].
      cbn [forallb]. rewrite (wf_option_with_argument w arg Earg Harg).
      apply IH; auto. cbn [length] in Hlen. lia. }
  now apply (H (length words)).
Qed.

Lemma parse_line_well_formed line server :
  parse_line line = Some server -> well_formed server = true.
Proof.
  rewrite parse_line_scan.
  destruct (scan_directive line) as [[[ty host] region]|] eqn:Es;
    try discriminate.
  intros [= <-].
  destruct (scan_directive_inv _ _ _ _ Es)
    as (ws & ws' & rest & (_ & _ & Hty & _ & Hne & Hhost & Hrest) & -> & _).
  unfold well_formed. cbn [type hostname options].
  rewrite Hhost, parse_options_consume.
  rewrite consume_options_wf.
  - destruct host; [congruence|]. destruct Hty as [-> | ->]; reflexivity.
  - apply split_words_plain, lower_region_plain.
    now apply options_region_chars.
Qed.

Lemma parse_lines_well_formed lines :
  forallb well_formed (parse_lines lines) = true.
Proof.
  induction lines as [|l lines IH]; auto. rewrite parse_lines_step.
  destruct (parse_line l) as [server|] eqn:E; auto.
  cbn [forallb]. now rewrite (parse_line_well_formed l server E), IH.
Qed.

(** X1: every server that is read from a configuration is well-formed,
    whatever the file holds: its type is SERVER or POOL, its host name is
    not empty and made of letters, digits, dots and dashes, and each of its
    options is a known flag or a known name with a lower-case argument. *)
Theorem servers_read_are_well_formed (fs : filesystem) path servers :
  get_servers_from_config fs path = inr servers ->
  forallb well_formed servers = true.
Proof.
  unfold get_servers_from_config.
  destruct (fs path) as [reason|[text [reason|]]]; cbn [contents read_error];
    try discriminate.
  intros [= <-]. apply parse_lines_well_formed.
Qed.

(** A pool with an option in upper case and an unknown option. *)
Lemma servers_read_example :
  get_servers_from_config
    (fun _ => Opened {| contents := py "pool x KEY 5 bogus" ++ [LF];
                        read_error := None |}) NTP_CONFIG_FILE
  = inr [{| type := py "POOL"; hostname := py "x";
            options := [py "key 5"] |}]
  /\ forallb well_formed
       [{| type := py "POOL"; hostname := py "x"; options := [py "key 5"] |}]
     = true.
Proof.
  split; [reflexivity|].
  apply (servers_read_are_well_formed
           (fun _ => Opened {| contents := py "pool x KEY 5 bogus" ++ [LF];
                               read_error := None |}) NTP_CONFIG_FILE).
  reflexivity.
Defined.

(** ** Reading after writing, for any servers *)

Lemma universal_newlines_app a b :
  universal_newlines ((a ++ [LF]) ++ b)
  = universal_newlines (a ++ [LF]) ++ universal_newlines b.
Proof.
  assert (H : forall n a, (length a <= n)%nat ->
    universal_newlines ((a ++ [LF]) ++ b)
    = universal_newlines (a ++ [LF]) ++ universal_newlines b).
  { clear a. induction n as [|n IH]; intros [|c a] Hlen;
      try reflexivity; cbn [length] in Hlen; try lia.
    cbn [app]. rewrite !universal_newlines_cons.
    destruct (Ascii.eqb c CR).
    - destruct a as [|d a]; [reflexivity|]. cbn [app length] in *.
      destruct (Ascii.eqb d LF).
      + cbn [app]. f_equal. apply IH. lia.
      + cbn [app]. f_equal. apply (IH (d :: a)). cbn [length]. lia.
    - cbn [app]. f_equal. apply IH. lia. }
  now apply (H (length a)).
Qed.

Lemma universal_newlines_ends a :
  exists body, universal_newlines (a ++ [LF]) = body ++ [LF].
Proof.
  assert (H : forall n a, (length a <= n)%nat ->
    exists body, universal_newlines (a ++ [LF]) = body ++ [LF]).
  { clear a. induction n as [|n IH]; intros [|c a] Hlen;
      try (now exists []); cbn [length] in Hlen; try lia.
    cbn [app]. rewrite universal_newlines_cons.
    destruct (Ascii.eqb c CR).
    - destruct a as [|d a]; [now exists []|]. cbn [app length] in *.
      destruct (Ascii.eqb d LF).
      + destruct (IH a ltac:(lia)) as [body ->]. now exists (LF :: body).
      + destruct (IH (d :: a) ltac:(cbn [length]; lia)) as [body Hb].
        cbn [app] in Hb. rewrite Hb. now exists (LF :: body).
    - destruct (IH a ltac:(lia)) as [body ->]. now exists (c :: body). }
  now apply (H (length a)).
Qed.

Lemma file_lines_app a b :
  file_lines ((a ++ [LF]) ++ b) = file_lines (a ++ [LF]) ++ file_lines b.
Proof.
  unfold file_lines. rewrite universal_newlines_app.
  destruct (universal_newlines_ends a) as [body ->].
  rewrite <- app_assoc. apply readlines_app_LF.
Qed.

(** The lines of a rewritten configuration, whatever the servers are. *)
Lemma file_lines_save_any servers old_conf :
  file_lines (save_servers_to_config servers old_conf)
  = file_lines (directive_block servers) ++ [blank]
    ++ passthrough_lines old_conf.
Proof.
  rewrite save_servers_text.
  destruct (directive_block_ends servers) as [body ->].
  rewrite file_lines_app. f_equal.
  unfold file_lines. rewrite universal_newlines_id.
  - change ([LF] ++ ?s) with ([] ++ LF :: s).
    rewrite readlines_complete by reflexivity.
    now rewrite readlines_concat by apply passthrough_lines_ok.
  - rewrite no_CR_app. now rewrite passthrough_lines_no_CR.
Qed.

Lemma get_servers_of text path :
  get_servers_from_config (file_with text) path = inr (servers_of text).
Proof. reflexivity. Qed.

(** X2: the servers read from a configuration, written over any
    configuration and read again, are the same servers: what the parser
    gives is kept by the writer. *)
Theorem read_write_read conf old_conf path :
  get_servers_from_config (file_with conf) path = inr (servers_of conf)
  /\ get_servers_from_config
       (file_with (save_servers_to_config (servers_of conf) old_conf)) path
     = inr (servers_of conf).
Proof.
  split; [reflexivity|]. rewrite get_servers_of. f_equal.
  pose proof (parse_lines_well_formed (file_lines conf)) as Hwf.
  fold (servers_of conf) in Hwf. unfold servers_of at 1.
  rewrite file_lines_save.
  - rewrite parse_lines_cons, !parse_lines_app.
    rewrite (parse_server_lines _ Hwf), parse_passthrough.
    change (parse_line heading) with (@None TimeSourceData).
    change (parse_lines [blank]) with (@nil TimeSourceData).
    cbn [app]. now rewrite app_nil_r.
  - revert Hwf. apply forallb_impl. exact well_formed_fits.
Qed.

(** X3: after a rewrite the servers of the file are those of the lines
    written for the new servers, whatever these are: no server of the old
    configuration is left, the old configuration has no part in what is
    read, and writing no server leaves a file without servers. *)
Theorem old_servers_replaced servers old_conf path :
  get_servers_from_config
    (file_with (save_servers_to_config servers old_conf)) path
  = inr (servers_of (directive_block servers))
  /\ (forall other_conf,
        get_servers_from_config
          (file_with (save_servers_to_config servers other_conf)) path
        = get_servers_from_config
            (file_with (save_servers_to_config servers old_conf)) path)
  /\ get_servers_from_config
       (file_with (save_servers_to_config [] old_conf)) path
     = inr [].
Proof.
  assert (Hany : forall ss conf,
    servers_of (save_servers_to_config ss conf)
    = servers_of (directive_block ss)).
  { intros ss conf. unfold servers_of. rewrite file_lines_save_any.
    rewrite !parse_lines_app, parse_passthrough.
    change (parse_lines [blank]) with (@nil TimeSourceData).
    now rewrite !app_nil_r. }
  rewrite !get_servers_of. split; [now rewrite Hany|]. split.
  - intros other_conf. now rewrite !get_servers_of, !Hany.
  - now rewrite Hany.
Qed.

(** X4: a configuration put after another one that ends with a newline
    adds its servers after the servers of the first. *)
Theorem servers_of_concatenation first second path :
  get_servers_from_config (file_with ((first ++ [LF]) ++ second)) path
  = inr (servers_of (first ++ [LF]) ++ servers_of second).
Proof.
  rewrite get_servers_of. unfold servers_of.
  now rewrite file_lines_app, parse_lines_app.
Qed.

(** ** Lines and their classes *)

Lemma split_snoc_space s c : is_space c = true -> split (s ++ [c]) = split s.
Proof.
  intros Hc. induction s as [|a s IH]; [cbn; now rewrite Hc|].
  cbn [app split]. destruct (is_space a); [exact IH|].
  destruct s as [|d s]; [cbn; now rewrite Hc|].
  cbn [app] in *. destruct (is_space d); now rewrite IH.
Qed.

Lemma lower_app a b : lower (a ++ b) = lower a ++ lower b.
Proof. apply map_app. Qed.

Lemma not_host_option_space c :
  is_option_char c = true -> is_host_char c = false -> is_space c = true.
Proof. by_cases_on_char c. Qed.

Lemma shape_with_newline line ws ty ws' host rest :
  directive_shape line ws ty ws' host rest ->
  directive_shape (line ++ [LF]) ws ty ws' host (rest ++ [LF]).
Proof.
  intros (-> & Hws & Hty & Hws' & Hne & Hhost & Hrest).
  unfold directive_shape. repeat split; auto.
  - now rewrite <- !app_assoc.
  - rewrite forallb_app, Hrest. reflexivity.
Qed.

Lemma shape_without_newline line ws ty ws' host rest' :
  directive_shape (line ++ [LF]) ws ty ws' host rest' ->
  exists rest, rest' = rest ++ [LF] /\ directive_shape line ws ty ws' host rest.
Proof.
  intros (Hline & Hws & Hty & Hws' & Hne & Hhost & Hrest).
  destruct rest' as [|c rest'] using rev_ind.
  - exfalso. rewrite app_nil_r in Hline.
    destruct host as [|h host] using rev_ind; [congruence|].
    rewrite !app_assoc in Hline. apply app_inj_tail in Hline as [_ <-].
    rewrite forallb_app in Hhost. apply andb_prop in Hhost as [_ Hh].
    discriminate Hh.
  - rewrite !app_assoc in Hline. apply app_inj_tail in Hline as [Hline <-].
    exists rest'. split; auto.
    rewrite forallb_app in Hrest. apply andb_prop in Hrest as [Hrest _].
    unfold directive_shape. rewrite Hline, <- !app_assoc. repeat split; auto.
Qed.

Lemma region_with_newline rest :
  forallb is_option_char rest = true ->
  take_while is_host_char rest = [] ->
  take_while is_host_char (rest ++ [LF]) = []
  /\ split (lower (options_region (drop_while is_host_char (rest ++ [LF]))))
     = split (lower (options_region rest)).
Proof.
  destruct rest as [|c rest]; [split; reflexivity|].
  cbn [forallb take_while app drop_while].
  intros [Hc _]%andb_prop. destruct (is_host_char c) eqn:Eh; [discriminate|].
  intros _. split; auto. cbn [options_region].
  rewrite (not_host_option_space c Hc Eh).
  rewrite lower_app. now apply split_snoc_space.
Qed.

(** X5: a line is read in the same way with a newline after it as without:
    the last line of a file gives the same server whether or not the file
    ends with a newline. *)
Theorem newline_makes_no_difference line :
  parse_line (line ++ [LF]) = parse_line line
  /\ is_directive (line ++ [LF]) = is_directive line.
Proof.
  assert (Hparse : parse_line (line ++ [LF]) = parse_line line).
  { rewrite !parse_line_scan.
    destruct (scan_directive line) as [[[ty host] region]|] eqn:Es.
    - destruct (scan_directive_inv _ _ _ _ Es)
        as (ws & ws' & rest & Hshape & -> & Htake).
      pose proof Hshape as (_ & _ & _ & _ & _ & _ & Hrest).
      rewrite (scan_directive_shape _ _ _ _ _ _
                 (shape_with_newline _ _ _ _ _ _ Hshape)).
      destruct (region_with_newline rest Hrest Htake) as [-> Hsplit].
      now rewrite app_nil_r, Hsplit.
    - destruct (scan_directive (line ++ [LF])) as [[[ty host] region]|] eqn:En;
        auto.
      destruct (scan_directive_inv _ _ _ _ En) as (ws & ws' & rest' & Hshape & _).
      destruct (shape_without_newline _ _ _ _ _ _ Hshape) as (rest & _ & Hs).
      rewrite (scan_directive_shape _ _ _ _ _ _ Hs) in Es. discriminate. }
  split; auto. unfold is_directive, parse_line in *.
  destruct (re_match SRV_LINE_REGEXP (line ++ [LF])),
    (re_match SRV_LINE_REGEXP line); auto; discriminate.
Qed.

(** X6: every line of a configuration is of one kind only: a directive,
    which gives one server when the file is read; the heading, which a
    rewrite drops; or a line that a rewrite copies. *)
Theorem lines_accounted_for conf :
  length (file_lines conf)
  = (length (servers_of conf) + count_lines is_heading (file_lines conf)
     + length (passthrough_lines conf))%nat
  /\ (forall line,
        (if is_directive line then 1 else 0)
        + (if is_heading line then 1 else 0)
        + (if is_passthrough line then 1 else 0) = 1)%nat.
Proof.
  assert (Hkind : forall line,
    ((if is_directive line then 1 else 0)
     + (if is_heading line then 1 else 0)
     + (if is_passthrough line then 1 else 0) = 1)%nat).
  { intros line. unfold is_passthrough, is_heading.
    destruct (str_eqb line heading) eqn:E.
    - apply str_eqb_eq in E. subst line. reflexivity.
    - now destruct (is_directive line). }
  split; auto.
  unfold servers_of, passthrough_lines, count_lines.
  induction (file_lines conf) as [|l lines IH]; auto.
  rewrite parse_lines_step. cbn [List.filter length].
  specialize (Hkind l). unfold is_directive in Hkind at 1.
  unfold parse_line at 1.
  destruct (re_match SRV_LINE_REGEXP l), (is_heading l), (is_passthrough l);
    cbn [length] in *; lia.
Qed.

(** ** Writing with the files *)





(** ** Probing *)

Lemma ntp_server_working_run (w : World) host nts st :
  ntp_server_working w host nts st
  = (probe_answer w host nts, with_events st [network_call host nts]).
Proof.
  unfold probe_answer, network_failure, network_call. run_effects.
  destruct nts; cbn;
    [destruct (connection w host 4460) as [[]|]
    |destruct (ntp_reply w host) as [[]|tx]]; reflexivity.
Qed.

(** X10: a probe makes one call to the network and nothing else: a
    connection to port 4460 when NTS is enabled, and then no request of the
    time; a request of the time otherwise. It never sets the clock and never
    touches the cache or the threads. It answers true exactly when the call
    returns, false exactly when the call raises one of the three errors the
    function names, and lets any other error through. *)
Theorem probe_outcome (w : World) host nts st :
  let run := ntp_server_working w host nts st in
  snd run = with_events st [network_call host nts]
  /\ is_set_system_time (network_call host nts) = false
  /\ is_request (network_call host nts) = negb nts
  /\ (fst run = inr true <-> network_failure w host nts = None)
  /\ (fst run = inr false <->
      exists e, network_failure w host nts = Some e /\ e <> OtherException)
  /\ (forall e, fst run = inl e <->
                e = OtherException
                /\ network_failure w host nts = Some OtherException).
Proof.
  intros run. subst run. rewrite ntp_server_working_run. unfold probe_answer.
  cbn [fst snd]. split; [reflexivity|].
  split; [now destruct nts|]. split; [now destruct nts|].
  destruct (network_failure w host nts) as [[]|];
    repeat split; intros; simplify_eq; eauto;
    try match goal with
        | H : exists _, _ |- _ => destruct H as (? & ? & ?); simplify_eq
        | H : _ /\ _ |- _ => destruct H; simplify_eq
        end;
    try (eexists; split; [reflexivity|discriminate]);
    try reflexivity.
Qed.

(** ** Checks and their threads *)

Section Checks.
Context `{Constants}.

Lemma thread_body_threads w t st :
  threads (snd (thread_body w t st)) = threads st.
Proof.
  destruct t as [server callback|host nts]; cbn [thread_body].
  - destruct (one_time_sync_cache w server callback st) as [_ Hthreads].
    unfold bind, ret.
    now destruct (_one_time_sync w server callback st) as [[e|b] st'].
  - unfold _check_status, bind. rewrite ntp_server_working_run.
    now destruct (probe_answer w host nts) as [e|[]].
Qed.

Lemma run_thread_threads w name t st :
  threads (snd (run_thread w name t st)) = delete name (threads st).
Proof.
  pose proof (thread_body_threads w t st) as Hthreads.
  unfold run_thread, bind, try_except, threadMgr_remove, ret.
  destruct (thread_body w t st) as [[e|[]] st'];
    cbn [fst snd threads] in *; now rewrite Hthreads.
Qed.

Lemma step_keeps_hosts st st' host :
  step st st' ->
  is_Some (_cache st !! host) -> is_Some (_cache st' !! host).
Proof.
  intros Hstep Hhost.
  destruct (step_cache st st' Hstep)
    as [-> | [(server & _ & ->) | (w & name & h & nts & _ & _ & Hset)]];
    auto.
  - rewrite lookup_insert. case_decide; eauto.
  - destruct Hset as [[_ ->] | [_ ->]]; rewrite lookup_insert;
      case_decide; eauto.
Qed.

Lemma reachable_checks_cached st :
  reachable st ->
  forall name host nts,
    threads st !! name = Some (ServerCheckThread host nts) ->
    is_Some (_cache st !! host).
Proof.
  induction 1 as [|st st' Hreach IH Hstep]; intros name host nts.
  - cbn [initial_system threads]. now rewrite lookup_empty.
  - pose proof (step_keeps_hosts st st') as Hkeep.
    destruct Hstep as [st server|st server callback|st w name0 t Hrun].
    + rewrite check_status_run. cbn [snd threads _cache].
      rewrite lookup_insert. case_decide.
      * intros [= <- _]. rewrite lookup_insert_eq. eauto.
      * intros Hold. rewrite lookup_insert. case_decide; eauto.
    + rewrite sync_async_run. cbn [snd].
      destruct (threads st !! sync_thread_name server) eqn:E; [eauto|].
      cbn [threads _cache]. rewrite lookup_insert. case_decide; [discriminate|].
      eauto.
    + rewrite run_thread_threads. intros [_ Hold]%lookup_delete_Some.
      apply Hkeep; eauto. now apply (step_thread st w name0 t).
Qed.

(** X11: in every state the system can reach, the host of each registered
    check thread has an entry in the cache, so a thread that ends writes
    over an entry and never adds a host; and no step of the system removes
    a host from the cache. *)
Theorem checks_only_update st :
  reachable st ->
  (forall name host nts,
     threads st !! name = Some (ServerCheckThread host nts) ->
     is_Some (_cache st !! host)
     /\ forall w,
          dom (_cache (snd (run_thread w name (ServerCheckThread host nts) st)))
          = dom (_cache st))
  /\ (forall st' host,
        step st st' ->
        is_Some (_cache st !! host) -> is_Some (_cache st' !! host)).
Proof.
  intros Hreach. split.
  - intros name host nts Hthread.
    pose proof (reachable_checks_cached st Hreach name host nts Hthread)
      as Hcached.
    split; auto. intros w. rewrite run_thread_cache. cbn [thread_body].
    rewrite check_thread_cache, ntp_server_working_run. cbn [fst].
    assert (Hdom : forall status,
      dom (<[host := status]> (_cache st)) = dom (_cache st)).
    { intros status. rewrite dom_insert_L.
      apply elem_of_dom in Hcached.
      now apply subseteq_union_1_L, singleton_subseteq_l. }
    destruct (probe_answer w host nts) as [e|[]]; auto.
  - intros st' host. apply step_keeps_hosts.
Qed.

(** X12: a check followed by the run of its thread. After the check the
    state of the server is the query; after the thread it is working when
    the call to the network returned, not working when the call raised an
    error the probe names, and still the query when another error ended the
    thread. The states of the other hosts are as before the check, the
    thread is no longer registered, and the only event is the call to the
    network. *)
Theorem check_then_probe (w : World) server st :
  let host := hostname server in
  let nts := str_in (py "nts") (options server) in
  let name := next_check_name st in
  let st1 := snd (check_status server st) in
  let st2 := snd (run_thread w name (ServerCheckThread host nts) st1) in
  threads st1 !! name = Some (ServerCheckThread host nts)
  /\ fst (get_status server st1) = inr NTP_SERVER_QUERY
  /\ fst (get_status server st2)
     = inr (match network_failure w host nts with
            | None => NTP_SERVER_OK
            | Some OtherException => NTP_SERVER_QUERY
            | Some _ => NTP_SERVER_NOK
            end)
  /\ (forall other,
        hostname other <> host ->
        fst (get_status other st2) = fst (get_status other st))
  /\ threads st2 = delete name (threads st)
  /\ trace st2 = trace st ++ [network_call host nts].
Proof.
  intros host nts name st1 st2.
  assert (Hst1 : st1 = {| _cache := <[host := NTP_SERVER_QUERY]> (_cache st);
                          threads := <[name := ServerCheckThread host nts]>
                                       (threads st);
                          thread_counter := S (thread_counter st);
                          trace := trace st |}).
  { subst st1. now rewrite check_status_run. }
  assert (Hcache2 : _cache st2
                    = match probe_answer w host nts with
                      | inr true => <[host := NTP_SERVER_OK]> (_cache st1)
                      | inr false => <[host := NTP_SERVER_NOK]> (_cache st1)
                      | inl _ => _cache st1
                      end).
  { subst st2. rewrite run_thread_cache. cbn [thread_body].
    now rewrite check_thread_cache, ntp_server_working_run. }
  assert (Htrace2 : trace st2 = trace st1 ++ [network_call host nts]).
  { subst st2. unfold run_thread, thread_body, _check_status, bind,
      try_except, threadMgr_remove, ret, _set_status.
    rewrite ntp_server_working_run.
    now destruct (probe_answer w host nts) as [e|[]]. }
  split; [rewrite Hst1; cbn [threads]; apply lookup_insert_eq|].
  split; [unfold get_status; rewrite Hst1; cbn [fst _cache];
          now rewrite lookup_insert_eq|].
  split; [|split; [|split]].
  - unfold get_status. cbn [fst]. rewrite Hcache2, Hst1. cbn [_cache].
    unfold probe_answer.
    destruct (network_failure w host nts) as [[]|];
      now rewrite lookup_insert_eq.
  - intros other Hother. unfold get_status. cbn [fst].
    rewrite Hcache2, Hst1. cbn [_cache].
    destruct (probe_answer w host nts) as [e|[]];
      now rewrite ?lookup_insert_ne by congruence.
  - subst st2. rewrite run_thread_threads, Hst1. cbn [threads].
    apply delete_insert_eq.
  - rewrite Htrace2, Hst1. reflexivity.
Qed.

End Checks.

(** The example of a check: its thread is registered and its host is in
    the cache. *)
Lemma checks_only_update_example :
  @reachable anaconda_constants checked_system
  /\ is_Some (_cache checked_system !! hostname example_server).
Proof.
  assert (Hreach : @reachable anaconda_constants checked_system).
  { apply (@reachable_step anaconda_constants initial_system).
    - apply reachable_initial.
    - apply (@step_check_status anaconda_constants). }
  split; [exact Hreach|].
  destruct (@checks_only_update anaconda_constants checked_system Hreach)
    as [Hthreads _].
  apply (Hthreads (@next_check_name anaconda_constants initial_system)
           (hostname example_server) false).
  reflexivity.
Defined.

(** ** Synchronisations and their threads *)

Section Syncs.
Context `{Constants}.

Lemma one_time_sync_trace w server callback st :
  trace (snd (_one_time_sync w server callback st))
  = trace st ++ sync_events w server callback.
Proof.
  unfold sync_events. run_effects.
  destruct (ntp_reply w (hostname server)) as [[]|tx]; cbn;
    try destruct (clock_failure w (int tx)) as [[]|]; cbn;
    destruct callback; cbn; rewrite <- ?app_assoc; reflexivity.
Qed.

Lemma callback_of_sync w server callback cb success :
  In (Callback cb success) (sync_events w server callback) ->
  callback = Some cb.
Proof.
  unfold sync_events, called.
  destruct (ntp_reply w (hostname server)) as [[]|tx]; cbn;
    try destruct (clock_failure w (int tx)) as [[]|]; cbn;
    destruct callback; cbn; intuition congruence.
Qed.

Lemma reachable_sync_names st :
  reachable st ->
  forall name server callback,
    threads st !! name = Some (SyncTimeThread server callback) ->
    name = sync_thread_name server.
Proof.
  induction 1 as [|st st' Hreach IH Hstep]; intros name server callback.
  - cbn [initial_system threads]. now rewrite lookup_empty.
  - destruct Hstep as [st s|st s cb|st w name0 t Hrun].
    + rewrite check_status_run. cbn [snd threads].
      rewrite lookup_insert. case_decide; [discriminate|]. apply IH.
    + rewrite sync_async_run. cbn [snd].
      destruct (threads st !! sync_thread_name s) eqn:E; [apply IH|].
      cbn [threads]. rewrite lookup_insert. case_decide; [|apply IH].
      now intros [= <- <-].
    + rewrite run_thread_threads. intros [_ Hold]%lookup_delete_Some.
      eapply IH, Hold.
Qed.



(** X15: the name of a synchronisation is taken only while its thread is
    registered: once the thread has run, whether the synchronisation
    succeeded, failed or raised, the threads are those from before the
    request, and a new request for the host registers a new thread. *)
Theorem sync_name_released (w : World) server callback callback' st :
  threads st !! sync_thread_name server = None ->
  let name := sync_thread_name server in
  let st1 := snd (one_time_sync_async server callback st) in
  let st2 := snd (run_thread w name (SyncTimeThread server callback) st1) in
  let st3 := snd (one_time_sync_async server callback' st2) in
  threads st1 !! name = Some (SyncTimeThread server callback)
  /\ threads st2 = threads st
  /\ threads st3 = <[name := SyncTimeThread server callback']> (threads st).
Proof.
  intros Hfree name st1 st2 st3. subst name.
  assert (H1 : threads st1
               = <[sync_thread_name server := SyncTimeThread server callback]>
                   (threads st)).
  { subst st1. now rewrite sync_async_run, Hfree. }
  assert (H2 : threads st2 = threads st).
  { subst st2. rewrite run_thread_threads, H1.
    now apply delete_insert_id. }
  split; [rewrite H1; apply lookup_insert_eq|]. split; [exact H2|].
  subst st3. rewrite sync_async_run, H2, Hfree.
  cbn [snd threads]. now f_equal.
Qed.

End Syncs.



(** A request, the run of its thread and a request again. *)
Lemma sync_name_released_example :
  threads initial_system !! @sync_thread_name anaconda_constants example_server
  = None
  /\ threads
       (snd (@run_thread anaconda_constants silent_world
               (@sync_thread_name anaconda_constants example_server)
               (SyncTimeThread example_server None) syncing_system))
     = threads initial_system.
Proof.
  split; [reflexivity|].
  destruct (@sync_name_released anaconda_constants silent_world
              example_server None None initial_system eq_refl)
    as (_ & Hfree & _).
  exact Hfree.
Defined.

(** ** Summaries *)

Section SummaryFacts.
Context `{Constants} `{I18n}.

Lemma description_of_valid status :
  valid_status status ->
  exists description,
    NTP_SERVER_STATUS_DESCRIPTIONS !! status = Some description
    /\ (description = py "checking status"
        \/ description = py "status: not working"
        \/ description = py "status: working").
Proof.
  unfold NTP_SERVER_STATUS_DESCRIPTIONS.
  intros [-> | [-> | ->]]; rewrite !lookup_insert;
    repeat case_decide; eauto 6; congruence.
Qed.

Lemma status_of_reachable st server :
  reachable st ->
  valid_status (default NTP_SERVER_QUERY (_cache st !! hostname server)).
Proof.
  intros Hreach.
  destruct (_cache st !! hostname server) as [status|] eqn:E; cbn.
  - apply (reachable_valid st Hreach _ _ E).
  - now left.
Qed.

Lemma get_status_description_run st server :
  reachable st ->
  get_status_description server st
  = (inr (gettext (description_of st server)), st).
Proof.
  intros Hreach. unfold get_status_description, description_of, bind,
    get_status.
  destruct (description_of_valid _ (status_of_reachable st server Hreach))
    as (description & -> & _).
  reflexivity.
Qed.

Lemma add_summaries_run st servers summary :
  reachable st ->
  add_summaries servers summary st
  = (inr (summary ++ concat (map (summary_line st) servers)), st).
Proof.
  intros Hreach. revert summary.
  induction servers as [|server servers IH]; intros summary;
    cbn [add_summaries map concat].
  - unfold ret. now rewrite app_nil_r.
  - unfold bind at 1. unfold get_ntp_server_summary, bind.
    rewrite (get_status_description_run st server Hreach). unfold ret at 1.
    rewrite IH. unfold summary_line. now rewrite <- !app_assoc.
Qed.

(** X16: in every state the system can reach the summary of any servers is
    made without an error and without a change of the system: the heading,
    then for each server in turn a new line with its host name and, in
    parentheses, the translated description of its state, which is one of
    the three descriptions; for no server the heading is followed by the
    words for not configured. A server that was never checked is described
    as being checked. *)
Theorem summary_of_servers st servers :
  reachable st ->
  get_ntp_servers_summary servers st
  = (inr (gettext (py "NTP servers:")
          ++ concat (map (summary_line st) servers)
          ++ match servers with
             | [] => py " " ++ gettext (py "not configured")
             | _ => []
             end), st)
  /\ (forall server,
        get_ntp_server_summary server st
        = (inr (hostname server ++ py " ("
                ++ gettext (description_of st server) ++ py ")"), st)
        /\ (description_of st server = py "checking status"
            \/ description_of st server = py "status: not working"
            \/ description_of st server = py "status: working"))
  /\ (forall server,
        _cache st !! hostname server = None ->
        description_of st server = py "checking status").
Proof.
  intros Hreach. split; [|split].
  - unfold get_ntp_servers_summary, bind.
    rewrite (add_summaries_run st servers _ Hreach).
    destruct servers; unfold ret; cbn [map concat];
      now rewrite ?app_nil_r, <- ?app_assoc.
  - intros server. split.
    + unfold get_ntp_server_summary, bind.
      now rewrite (get_status_description_run st server Hreach).
    + unfold description_of.
      destruct (description_of_valid _ (status_of_reachable st server Hreach))
        as (description & -> & Hd).
      exact Hd.
  - intros server Hnone. unfold description_of. rewrite Hnone. cbn [default].
    unfold NTP_SERVER_STATUS_DESCRIPTIONS. now rewrite lookup_insert_eq.
Qed.

End SummaryFacts.

(** The summary of the server of the example while it is checked. *)
Lemma summary_example :
  @reachable anaconda_constants checked_system
  /\ @get_ntp_servers_summary anaconda_constants no_translation
       [example_server] checked_system
     = (inr (py "NTP servers:" ++ [LF]
             ++ py "ntp.example.com (checking status)"), checked_system).
Proof.
  assert (Hreach : @reachable anaconda_constants checked_system).
  { apply (@reachable_step anaconda_constants initial_system).
    - apply reachable_initial.
    - apply (@step_check_status anaconda_constants). }
  split; [exact Hreach|].
  destruct (@summary_of_servers anaconda_constants no_translation
              checked_system [example_server] Hreach) as [Hsummary _].
  exact Hsummary.
Defined.
